(** * AuthContext: the client-side session manager of Chat_App

    A shallow embedding of [client/src/context/AuthContext.jsx]: the
    [API_URL] computation, the React state of [AuthProvider]
    ([user], [loading], [token]), the effect that mirrors the token onto
    [axios.defaults.headers.common] and [localStorage], and the operations
    [checkAuth], [login], [register], [logout] and [handleOAuthSuccess]. *)

From Stdlib Require Import Ascii.
From stdpp Require Import base strings gmap pretty.

Open Scope string_scope.
Open Scope Z_scope.

(** ** JavaScript values *)

(** The numbers of the payloads: the safe integers, which a JavaScript
    number holds exactly and prints in full. *)
Record safe_int : Type := SafeInt {
  int_val : Z;
  int_safe : (Z.abs int_val <? 2 ^ 53) = true
}.

(** The values that flow through the provider: response payloads, error
    objects, tokens and profiles.  Objects are their own enumerable fields
    in order. *)
#[warnings="-register-all"]
Inductive value : Type :=
| Undefined
| Null
| Bool (b : bool)
| Num (n : safe_int)
| Str (s : string)
| Obj (fields : list (string * value)).

(** [if (v)], [!v], [a || b]: ToBoolean. *)
Definition truthy (v : value) : bool :=
  match v with
  | Undefined | Null => false
  | Bool b => b
  | Num n => negb (int_val n =? 0)
  | Str s => negb (String.eqb s "")
  | Obj _ => true
  end.

(** [a || b] *)
Definition or_else (a b : value) : value := if truthy a then a else b.

(** [`${v}`] and the coercion made by [localStorage.setItem]: ToString. *)
Definition to_string (v : value) : string :=
  match v with
  | Undefined => "undefined"
  | Null => "null"
  | Bool true => "true"
  | Bool false => "false"
  | Num n => pretty (int_val n)
  | Str s => s
  | Obj _ => "[object Object]"
  end.

Definition nullish (v : value) : bool :=
  match v with
  | Undefined | Null => true
  | _ => false
  end.

(** Own-property lookup in an object literal. *)
Fixpoint field (k : string) (fields : list (string * value)) : value :=
  match fields with
  | [] => Undefined
  | (k', v) :: rest => if String.eqb k' k then v else field k rest
  end.

(** The outcome of evaluating an expression: a value or a thrown one. *)
Inductive result (A : Type) : Type :=
| Ok (a : A)
| Throw (e : value).
Arguments Ok {A} a.
Arguments Throw {A} e.

(** What [v.k] throws when [v] is [null] or [undefined]. *)
Definition TypeError : value := Obj [("name", Str "TypeError")].

(** [v.k]: throws on [null] and [undefined]; a primitive has none of the
    keys read in this file ([response], [data], [error], [user], [token]). *)
Definition get_prop (v : value) (k : string) : result value :=
  match v with
  | Undefined | Null => Throw TypeError
  | Obj fields => Ok (field k fields)
  | _ => Ok Undefined
  end.

(** [v?.k] *)
Definition get_opt (v : value) (k : string) : value :=
  match v with
  | Obj fields => field k fields
  | _ => Undefined
  end.

(** [Object.is], by which React compares hook dependencies and state.
    Objects are compared by their fields: two references to equal objects
    are not told apart. *)
Fixpoint same_value (a b : value) : bool :=
  match a, b with
  | Undefined, Undefined => true
  | Null, Null => true
  | Bool x, Bool y => Bool.eqb x y
  | Num x, Num y => int_val x =? int_val y
  | Str x, Str y => String.eqb x y
  | Obj fs, Obj gs =>
      (fix same_fields (fs gs : list (string * value)) : bool :=
         match fs, gs with
         | [], [] => true
         | (k, v) :: fs', (k', v') :: gs' =>
             String.eqb k k' && same_value v v' && same_fields fs' gs'
         | _, _ => false
         end) fs gs
  | _, _ => false
  end.

(** Induction over values that reaches the fields of an object. *)
Fixpoint value_fields_ind (P : value -> Prop)
    (HU : P Undefined) (HN : P Null) (HB : forall b, P (Bool b))
    (HZ : forall n, P (Num n)) (HS : forall s, P (Str s))
    (HO : forall fields, Forall (fun kv => P kv.2) fields -> P (Obj fields))
    (v : value) : P v :=
  match v with
  | Undefined => HU
  | Null => HN
  | Bool b => HB b
  | Num n => HZ n
  | Str s => HS s
  | Obj fields =>
      HO fields
        ((fix all (l : list (string * value)) : Forall (fun kv => P kv.2) l :=
            match l with
            | [] => @List.Forall_nil _ _
            | kv :: l' =>
                @List.Forall_cons _ _ kv l'
                  (value_fields_ind P HU HN HB HZ HS HO kv.2) (all l')
            end) fields)
  end.

(** ** The API base URL *)

(** The rest of the string from here on is slashes (the [\/+$] of the
    pattern once its first slash is found). *)
Fixpoint all_slashes (s : string) : bool :=
  match s with
  | "" => true
  | String c rest => Ascii.eqb c "/"%char && all_slashes rest
  end.

(** [s.replace(/\/+$/, '')]: the match is tried at each index from the
    left; it succeeds at the first index from which one or more slashes run
    to the end of the string, and the match is replaced by nothing. *)
Fixpoint strip_trailing_slashes (s : string) : string :=
  match s with
  | "" => ""
  | String c rest =>
      if all_slashes s then "" else String c (strip_trailing_slashes rest)
  end.

(** A run of [n] slashes. *)
Fixpoint slashes (n : nat) : string :=
  match n with
  | O => ""
  | S n' => String "/" (slashes n')
  end.

(** [s.endsWith(suffix)] *)
Fixpoint endsWith (s suffix : string) : bool :=
  String.eqb s suffix ||
  match s with
  | "" => false
  | String _ rest => endsWith rest suffix
  end.

(** [window.location], of which only [origin] is read. *)
Record Location : Type := { origin : string }.

(** The global [window] of a browser. *)
Record Window : Type := { location : option Location }.

(** The module-level constant [API_URL], as a function of
    [import.meta.env.VITE_API_URL] (a string, or [None] for [undefined])
    and of the global [window] ([None] where [typeof window] is
    ['undefined']).  The [console.warn] calls are not modelled. *)
Definition API_URL (_VITE_API : option string) (window : option Window)
  : string :=
  let fallback :=
    match window with
    | Some {| location := Some loc |} => origin loc +:+ "/api"
    | _ => "/api"
    end in
  match _VITE_API with
  | Some v =>
      if truthy (Str v) then
        let trimmed := strip_trailing_slashes v in
        if endsWith trimmed "/api" then trimmed else trimmed +:+ "/api"
      else fallback
  | None => fallback
  end.

(** ** The provider's world *)

(** A call through axios. *)
Inductive request : Type :=
| GET (url : string)
| POST (url : string) (body : value).

(** How the promise of an axios call settles. *)
Inductive outcome : Type :=
| Resolved (response : value)
| Rejected (error : value).

(** What the provider reads and writes: its three [useState] cells, the
    dependency the token effect last ran for ([None] before the first
    render is committed), [axios.defaults.headers.common] and
    [localStorage]. *)
Record state : Type := {
  user : value;
  loading : bool;
  token : value;
  deps : option value;
  headers : gmap string string;
  localStorage : gmap string string
}.

Definition with_user (v : value) (s : state) : state :=
  {| user := v; loading := loading s; token := token s; deps := deps s;
     headers := headers s; localStorage := localStorage s |}.

Definition with_loading (b : bool) (s : state) : state :=
  {| user := user s; loading := b; token := token s; deps := deps s;
     headers := headers s; localStorage := localStorage s |}.

Definition with_token (v : value) (s : state) : state :=
  {| user := user s; loading := loading s; token := v; deps := deps s;
     headers := headers s; localStorage := localStorage s |}.

Definition with_deps (d : option value) (s : state) : state :=
  {| user := user s; loading := loading s; token := token s; deps := d;
     headers := headers s; localStorage := localStorage s |}.

Definition with_headers (h : gmap string string) (s : state) : state :=
  {| user := user s; loading := loading s; token := token s; deps := deps s;
     headers := h; localStorage := localStorage s |}.

Definition with_localStorage (l : gmap string string) (s : state) : state :=
  {| user := user s; loading := loading s; token := token s; deps := deps s;
     headers := headers s; localStorage := l |}.

(** ** Asynchronous code *)

(** Where a piece of code stands when it gives control back: it has
    returned or thrown, or it is suspended at an [await] of an axios call
    with the rest of its body as continuation. *)
Inductive step (P : Type) : Type :=
| Done (r : result value)
| Await (req : request) (k : outcome -> P).
Arguments Done {P} r.
Arguments Await {P} req k.

(** A run up to the next suspension: the state reached, the calls started
    without [await] that are now in flight, and where the code stands. *)
Record ran (P : Type) : Type := Ran {
  reached : state;
  started : list (request * (outcome -> P));
  stands : step P
}.
Arguments Ran {P} reached started stands.
Arguments reached {P} r.
Arguments started {P} r.
Arguments stands {P} r.

(** A JavaScript computation over the provider's state, synchronous or
    [async]. *)
#[warnings="-register-all"]
Inductive proc : Type :=
| Proc (run : state -> ran proc).

Definition run (p : proc) : state -> ran proc :=
  match p with Proc r => r end.

(** A call in flight with what runs when it settles. *)
Definition task : Type := request * (outcome -> proc).

(** [return v] *)
Definition ret (v : value) : proc := Proc (fun s => Ran s [] (Done (Ok v))).

(** [throw e] *)
Definition throw (e : value) : proc := Proc (fun s => Ran s [] (Done (Throw e))).

(** The value or exception of an expression, as a computation. *)
Definition eval (r : result value) : proc := Proc (fun s => Ran s [] (Done r)).

(** [const x = p; f x] *)
Fixpoint bind (p : proc) (f : value -> proc) : proc :=
  match p with
  | Proc r =>
      Proc (fun s =>
        match r s with
        | Ran s1 ts (Done (Ok v)) =>
            match run (f v) s1 with
            | Ran s2 ts2 nx => Ran s2 (ts ++ ts2) nx
            end
        | Ran s1 ts (Done (Throw e)) => Ran s1 ts (Done (Throw e))
        | Ran s1 ts (Await req k) => Ran s1 ts (Await req (fun o => bind (k o) f))
        end)
  end.

(** [try { p } catch (error) { h error }] *)
Fixpoint try_catch (p : proc) (h : value -> proc) : proc :=
  match p with
  | Proc r =>
      Proc (fun s =>
        match r s with
        | Ran s1 ts (Done (Ok v)) => Ran s1 ts (Done (Ok v))
        | Ran s1 ts (Done (Throw e)) =>
            match run (h e) s1 with
            | Ran s2 ts2 nx => Ran s2 (ts ++ ts2) nx
            end
        | Ran s1 ts (Await req k) =>
            Ran s1 ts (Await req (fun o => try_catch (k o) h))
        end)
  end.

(** The end of a [finally] block: unless the block itself threw, the
    protected code's own completion [r] stands. *)
Fixpoint complete_with (r : result value) (f : proc) : proc :=
  match f with
  | Proc rf =>
      Proc (fun s =>
        match rf s with
        | Ran s1 ts (Done (Ok _)) => Ran s1 ts (Done r)
        | Ran s1 ts (Done (Throw e)) => Ran s1 ts (Done (Throw e))
        | Ran s1 ts (Await req k) =>
            Ran s1 ts (Await req (fun o => complete_with r (k o)))
        end)
  end.

(** [try { p } finally { f }] *)
Fixpoint finally (p : proc) (f : proc) : proc :=
  match p with
  | Proc r =>
      Proc (fun s =>
        match r s with
        | Ran s1 ts (Done c) =>
            match run (complete_with c f) s1 with
            | Ran s2 ts2 nx => Ran s2 (ts ++ ts2) nx
            end
        | Ran s1 ts (Await req k) =>
            Ran s1 ts (Await req (fun o => finally (k o) f))
        end)
  end.

(** [p()] for an [async] function [p], not awaited: the body runs up to
    its first [await], the rest is left in flight, and the caller goes on
    with the promise, which it does not look at. *)
Definition call (p : proc) : proc :=
  Proc (fun s =>
    match run p s with
    | Ran s1 ts (Done _) => Ran s1 ts (Done (Ok Undefined))
    | Ran s1 ts (Await req k) => Ran s1 (ts ++ [(req, k)]) (Done (Ok Undefined))
    end).

(** [await axios.get(url)], [await axios.post(url, body)]: the request goes
    out; the value is the response, and a rejection is thrown. *)
Definition await_axios (req : request) : proc :=
  Proc (fun s =>
    Ran s [] (Await req (fun o =>
      match o with
      | Resolved response => ret response
      | Rejected error => throw error
      end))).

Declare Scope proc_scope.
Delimit Scope proc_scope with proc.
Bind Scope proc_scope with proc.
Notation "'let*' x ':=' p 'in' q" := (bind p (fun x => q))
  (at level 10, x name, p at level 100, q at level 200) : proc_scope.
Notation "p ';;' q" := (bind p (fun _ => q))
  (at level 100, q at level 200, right associativity) : proc_scope.

(** ** React state and the browser's stores *)

(** A synchronous statement that changes the state and yields [undefined]. *)
Definition update (f : state -> state) : proc :=
  Proc (fun s => Ran (f s) [] (Done (Ok Undefined))).

(** Reading a variable of the component. *)
Definition read (f : state -> value) : proc :=
  Proc (fun s => Ran s [] (Done (Ok (f s)))).

Definition setUser (v : value) : proc := update (with_user v).
Definition setLoading (b : bool) : proc := update (with_loading b).
Definition setToken (v : value) : proc := update (with_token v).

(** [localStorage.getItem(key)], of a store. *)
Definition getItem (key : string) (store : gmap string string) : value :=
  match store !! key with
  | Some v => Str v
  | None => Null
  end.

(** [localStorage.setItem(key, v)] *)
Definition setItem (key : string) (v : value) (s : state) : state :=
  with_localStorage (<[key := to_string v]> (localStorage s)) s.

(** [localStorage.removeItem(key)] *)
Definition removeItem (key : string) (s : state) : state :=
  with_localStorage (delete key (localStorage s)) s.

(** The effect with dependencies [[token]]. *)
Definition token_effect (s : state) : state :=
  if truthy (token s) then
    setItem "token" (token s)
      (with_headers
         (<["Authorization" := "Bearer " +:+ to_string (token s)]> (headers s)) s)
  else
    removeItem "token"
      (with_headers (delete "Authorization" (headers s)) s).

(** React commits the state and runs the effects whose dependencies
    changed: the token effect runs on the first commit and whenever
    [token] is not the value it last ran for. *)
Definition render (s : state) : state :=
  match deps s with
  | Some d =>
      if same_value d (token s) then s
      else with_deps (Some (token s)) (token_effect s)
  | None => with_deps (Some (token s)) (token_effect s)
  end.

(** ** AuthProvider *)

(** The object [{ success: true, user }]. *)
Definition success (user : value) : value :=
  Obj [("success", Bool true); ("user", user)].

(** The object [{ success: false, error: message }]. *)
Definition failure (message : value) : value :=
  Obj [("success", Bool false); ("error", message)].

Section AuthProvider.

(** The environment the module is loaded in. *)
Variable _VITE_API : option string.
Variable window : option Window.

Local Abbreviation url path := (API_URL _VITE_API window +:+ path).

Local Open Scope proc_scope.

(** [logout]; the [console.error] of its [catch] block is not modelled. *)
Definition logout : proc :=
  finally
    (try_catch
       (await_axios (POST (url "/auth/logout") Undefined);;
        ret Undefined)
       (fun error => ret Undefined))
    (setUser Null;;
     setToken Null;;
     update (removeItem "token")).

(** [checkAuth] as a render creates it: its [if (!token)] tests the
    [token] of that render, whatever the token has become by the time it
    is called.  It calls [logout] without awaiting it. *)
Definition checkAuth (token : value) : proc :=
  finally
    (try_catch
       (if negb (truthy token) then
          setLoading false
        else
          let* response := await_axios (GET (url "/auth/me")) in
          let* data := eval (get_prop response "data") in
          let* user := eval (get_prop data "user") in
          setUser user)
       (fun error => call logout))
    (setLoading false).

Definition login (email password : value) : proc :=
  try_catch
    (let* response :=
       await_axios
         (POST (url "/auth/login")
            (Obj [("email", email); ("password", password)])) in
     let* data := eval (get_prop response "data") in
     let* user := eval (get_prop data "user") in
     let* token := eval (get_prop data "token") in
     setUser user;;
     setToken token;;
     ret (success user))
    (fun error =>
       let* response := eval (get_prop error "response") in
       let message :=
         or_else (get_opt (get_opt response "data") "error")
           (Str "Login failed") in
       ret (failure message)).

Definition register (username email password : value) : proc :=
  try_catch
    (let* response :=
       await_axios
         (POST (url "/auth/register")
            (Obj [("username", username); ("email", email);
                  ("password", password)])) in
     let* data := eval (get_prop response "data") in
     let* user := eval (get_prop data "user") in
     let* token := eval (get_prop data "token") in
     setUser user;;
     setToken token;;
     ret (success user))
    (fun error =>
       let* response := eval (get_prop error "response") in
       let message :=
         or_else (get_opt (get_opt response "data") "error")
           (Str "Registration failed") in
       ret (failure message)).

Definition handleOAuthSuccess (token userData : value) : proc :=
  setToken token;;
  setUser userData.

(** The first render of [AuthProvider], given what
    [axios.defaults.headers.common] and [localStorage] hold. *)
Definition first_render (hdrs store : gmap string string) : state :=
  {| user := Null;
     loading := true;
     token := getItem "token" store;
     deps := None;
     headers := hdrs;
     localStorage := store |}.

(** The effects of the first commit, as the first render creates them,
    its [token] being the state's; in the order they are declared: the
    token effect, then the one with no dependencies, which calls the
    [checkAuth] of that render. *)
Definition mount_effects : proc :=
  let* token := read token in
  update render;;
  call (checkAuth token).

(** ** The event loop *)

(** A piece of code committed on its own: it runs until it returns or
    suspends, and React commits what it set before anything else runs.
    React may as well commit later, after more code has run: see
    [reachable]. *)
Definition turn (p : proc) (s : state) : ran proc :=
  match run p s with
  | Ran s1 ts nx => Ran (render s1) ts nx
  end.

(** [p] run on its own, its awaited calls settling as [os] says, one after
    the other: nothing else runs before it is done, and React commits
    after each of its pieces. *)
Fixpoint exec (os : list outcome) (p : proc) (s : state) : ran proc :=
  match turn p s, os with
  | Ran s1 ts (Await _ k), o :: os' =>
      match exec os' (k o) s1 with
      | Ran s2 ts2 nx => Ran s2 (ts ++ ts2) nx
      end
  | r, _ => r
  end.

(** A call left in flight settles, and React commits. *)
Definition settle (t : task) (o : outcome) (s : state) : ran proc :=
  turn (t.2 o) s.

End AuthProvider.


(** ** Observations and invariants *)

(** The credential attached to the transport layer. *)
Definition attached (s : state) : option string :=
  headers s !! "Authorization".

(** The persisted token. *)
Definition persisted (s : state) : option string :=
  localStorage s !! "token".

(** Header and store agree with the token: both carry it when it is
    truthy, both are absent when it is not. *)
Definition paired (s : state) : Prop :=
  if truthy (token s) then
    attached s = Some ("Bearer " +:+ to_string (token s)) /\
    persisted s = Some (to_string (token s))
  else
    attached s = None /\ persisted s = None.

(** React has committed the token: the effect last ran for it. *)
Definition committed (s : state) : Prop :=
  deps s = Some (token s).

(** The token is committed, with header and store agreeing with it. *)
Definition synced (s : state) : Prop :=
  committed s /\ paired s.

(** What the token effect leaves on the header for the token [d]. *)
Definition credential (d : value) : option string :=
  if truthy d then Some ("Bearer " +:+ to_string d) else None.

(** What the token effect leaves in the store for the token [d]. *)
Definition stored (d : value) : option string :=
  if truthy d then Some (to_string d) else None.

(** If [d] is the token the effect last ran for, header and store are as
    it left them. *)
Definition kept (d : value) (s : state) : Prop :=
  deps s = Some d -> attached s = credential d /\ persisted s = stored d.

(** The header is as the token effect last left it, and the store too
    unless the token has been removed from it since. *)
Definition anchored (s : state) : Prop :=
  exists d, deps s = Some d /\ attached s = credential d /\
            (persisted s = stored d \/ persisted s = None).

(** Token and user empty, credential detached, persisted token erased. *)
Definition signed_out (s : state) : Prop :=
  token s = Null /\ user s = Null /\ attached s = None /\ persisted s = None.

(** Signed in as [u] with token [t]: both are in the session, and the
    token is on the header and in the store. *)
Definition signed_in (u t : value) (s : state) : Prop :=
  user s = u /\ token s = t /\
  attached s = Some ("Bearer " +:+ to_string t) /\
  persisted s = Some (to_string t).

(** A response that has a payload has a non-empty token in it. *)
Definition token_supplied (o : outcome) : bool :=
  match o with
  | Rejected _ => true
  | Resolved response =>
      match get_prop response "data" with
      | Ok data =>
          match get_prop data "token" with
          | Ok t => truthy t
          | Throw _ => true
          end
      | Throw _ => true
      end
  end.

(** [user] is set only while [token] is. *)
Definition user_needs_token (s : state) : Prop :=
  truthy (user s) = true -> truthy (token s) = true.

(** [error.response?.data?.error], for an [error] that is not [null] or
    [undefined]. *)
Definition reason (error : value) : value :=
  get_opt (get_opt (get_opt error "response") "data") "error".

(** The object literal [fields] has [v] under the key [k]: the first
    field of that key. *)
Definition binds (fields : list (string * value)) (k : string) (v : value)
  : Prop :=
  exists before after,
    fields = (before ++ (k, v) :: after)%list /\
    Forall (fun kv => kv.1 <> k) before.

(** The error carries the payload reason [m]: it is an object whose
    [response] is an object whose [data] is an object with [m] under
    [error]. *)
Definition carries (error m : value) : Prop :=
  exists fe fr fd,
    error = Obj fe /\ binds fe "response" (Obj fr) /\
    binds fr "data" (Obj fd) /\ binds fd "error" m.

(** What is left of [p], called in the state [s], once the call it awaits
    has settled as [o]. *)
Definition continuation (p : proc) (s : state) (o : outcome) : proc :=
  match stands (run p s) with
  | Await _ k => k o
  | Done r => eval r
  end.

(** The rest of [logout] once its request has settled. *)
Definition logout_settled (o : outcome) : proc :=
  finally
    (try_catch
       (bind match o with
             | Resolved response => ret response
             | Rejected error => throw error
             end (fun _ => ret Undefined))
       (fun _ => ret Undefined))
    (bind (setUser Null)
       (fun _ => bind (setToken Null)
                   (fun _ => update (removeItem "token")))).

(** How the "who am I" query fails: the call rejects, or the response
    has no [data] to read [user] from. *)
Definition restore_fails (o : outcome) : bool :=
  match o with
  | Rejected _ => true
  | Resolved response =>
      match get_prop response "data" with
      | Ok data => nullish data
      | Throw _ => true
      end
  end.

Section Reachable.

Variable _VITE_API : option string.
Variable window : option Window.

(** What a consumer of the context can call. *)
Inductive operation : Type :=
| CheckAuth (token : value)
| Login (email password : value)
| Register (username email password : value)
| Logout
| HandleOAuthSuccess (token userData : value).

Definition invoke (op : operation) : proc :=
  match op with
  | CheckAuth token => checkAuth _VITE_API window token
  | Login email password => login _VITE_API window email password
  | Register username email password =>
      register _VITE_API window username email password
  | Logout => logout _VITE_API window
  | HandleOAuthSuccess token userData => handleOAuthSuccess token userData
  end.

(** The calls in flight once [r] has given control back. *)
Definition pending (r : ran proc) : list task :=
  started r ++
  match stands r with
  | Await req k => [(req, k)]
  | Done _ => []
  end.

(** The states the provider goes through once mounted, with the calls in
    flight.  The first commit with its effects comes first.  Then any
    operation may be called at any time, [checkAuth] being the one of any
    render; any call in flight may settle, either way, at any time; and
    React commits at any time, after one piece of code or after several.
    Nothing but the provider writes the header's [Authorization] or the
    store's [token]. *)
Inductive reachable : state -> list task -> Prop :=
| reach_mount hdrs store r :
    r = turn (mount_effects _VITE_API window) (first_render hdrs store) ->
    reachable (reached r) (pending r)
| reach_invoke s ts op r :
    reachable s ts ->
    r = run (invoke op) s ->
    reachable (reached r) (ts ++ pending r)
| reach_settle s ts1 t ts2 o r :
    reachable s (ts1 ++ t :: ts2) ->
    r = run (t.2 o) s ->
    reachable (reached r) (ts1 ++ ts2 ++ pending r)
| reach_commit s ts :
    reachable s ts ->
    reachable (render s) ts.

End Reachable.

(** The provider just mounted in a browser with nothing stored. *)
Definition mounted_anonymous : ran proc :=
  turn (mount_effects None None) (first_render ∅ ∅).

(** The provider just mounted over a stored token ["abc"]: the token is
    attached and [checkAuth] is waiting for the "who am I" response. *)
Definition mounted_restoring : ran proc :=
  turn (mount_effects None None) (first_render ∅ {["token" := "abc"]}).

(** The numbers of the examples. *)
Definition one : safe_int := SafeInt 1 eq_refl.
Definition two : safe_int := SafeInt 2 eq_refl.
Definition no_content : safe_int := SafeInt 204 eq_refl.

(** A login response [{ data: { user: { id: 2 }, token } }]. *)
Definition login_response (token : value) : value :=
  Obj [("data", Obj [("user", Obj [("id", Num two)]); ("token", token)])].

(** A rejection with no response, as on a network error. *)
Definition network_error : value :=
  Obj [("message", Str "Network Error")].

(** A rejection that carries the payload [{ error: reason }]. *)
Definition rejection (reason : value) : value :=
  Obj [("response", Obj [("data", Obj [("error", reason)])])].

(** A "who am I" response [{ data: { user: { id: 1 } } }]. *)
Definition me_response : value :=
  Obj [("data", Obj [("user", Obj [("id", Num one)])])].

(** Signed in with the stored token ["abc"]: the provider mounted over
    it, the "who am I" query answered with a profile, all committed. *)
Definition restored : state :=
  let s := reached mounted_restoring in
  render (reached (run (continuation (checkAuth None None (Str "abc")) s
                          (Resolved me_response)) s)).

(** Then [logout] has run to its end, and React has not committed yet. *)
Definition logged_out : state :=
  reached (run (continuation (logout None None) restored
                  (Resolved Undefined)) restored).

(** Then [handleOAuthSuccess('abc', { id: 2 })], and React commits. *)
Definition logout_then_oauth : state :=
  render (reached (run (handleOAuthSuccess (Str "abc") (Obj [("id", Num two)]))
                     logged_out)).

(** Or then a login answered with the token ["abc"], and React commits. *)
Definition logout_then_login : state :=
  render (reached (run (continuation
                          (login None None (Str "a@b.com") (Str "pw"))
                          logged_out
                          (Resolved (login_response (Str "abc"))))
                     logged_out)).

(** ** The context and its consumers *)

(** [new Error(message)] *)
Definition Error (message : string) : value :=
  Obj [("name", Str "Error"); ("message", Str message)].

(** The state fields of the object [AuthProvider] hands to
    [AuthContext.Provider]; its other fields are the five operations. *)
Definition context_value (s : state) : value :=
  Obj [("user", user s); ("loading", Bool (loading s)); ("token", token s)].

(** [useContext(AuthContext)]: the value of the provider above the
    consumer, or the default of [createContext()], which is [undefined],
    where there is none. *)
Definition useContext (provider : option state) : value :=
  match provider with
  | Some s => context_value s
  | None => Undefined
  end.

Definition useAuth (provider : option state) : result value :=
  let context := useContext provider in
  if negb (truthy context) then
    Throw (Error "useAuth must be used within an AuthProvider")
  else Ok context.

(** ** What the provider leaves alone *)

(** The provider after its first commit, over the given header and store. *)
Definition mounted (_VITE_API : option string) (window : option Window)
    (hdrs store : gmap string string) : ran proc :=
  turn (mount_effects _VITE_API window) (first_render hdrs store).

(** From [s] to [s'] every header but [Authorization] and every stored
    key but [token] is as it was. *)
Definition others_kept (s s' : state) : Prop :=
  (forall k, k <> "Authorization" -> headers s' !! k = headers s !! k) /\
  (forall k, k <> "token" -> localStorage s' !! k = localStorage s !! k).

(** From [s] to [s'] [loading] has not gone back to [true]. *)
Definition loading_settled (s s' : state) : Prop :=
  loading s = false -> loading s' = false.

(** Both together: the other entries kept, [loading] not set back. *)
Definition calm (s s' : state) : Prop :=
  others_kept s s' /\ loading_settled s s'.

(** From [s] to [s'] the effect has not run, the header is untouched, and
    the store is untouched or has lost its token. *)
Definition hands_off (s s' : state) : Prop :=
  deps s' = deps s /\ headers s' = headers s /\
  (localStorage s' = localStorage s \/
   localStorage s' = delete "token" (localStorage s)).

Section Conduct.

Variable _VITE_API : option string.
Variable window : option Window.

(** The four requests of the provider. *)
Definition auth_request (req : request) : Prop :=
  req = GET (API_URL _VITE_API window +:+ "/auth/me") \/
  req = POST (API_URL _VITE_API window +:+ "/auth/logout") Undefined \/
  (exists email password,
     req = POST (API_URL _VITE_API window +:+ "/auth/login")
             (Obj [("email", email); ("password", password)])) \/
  (exists username email password,
     req = POST (API_URL _VITE_API window +:+ "/auth/register")
             (Obj [("username", username); ("email", email);
                   ("password", password)])).

(** A call in flight is one of the four requests, and when it is the
    "who am I" query, what runs as it settles ends with [loading] false. *)
Definition fair_task (t : task) : Prop :=
  auth_request t.1 /\
  (t.1 = GET (API_URL _VITE_API window +:+ "/auth/me") ->
   forall o s, loading (reached (run (t.2 o) s)) = false).

(** Code that, run up to its next suspension, leaves the header alone
    and the store too but for removing the token, does not set [loading]
    back to [true], and leaves only fair tasks running such code in
    flight. *)
#[warnings="-register-all"]
Inductive orderly : proc -> Prop :=
| orderly_intro p :
    (forall s, hands_off s (reached (run p s)) /\
               loading_settled s (reached (run p s))) ->
    (forall s t, t ∈ pending (run p s) ->
                 fair_task t /\ forall o, orderly (t.2 o)) ->
    orderly p.

(** Calls in flight that are fair and run orderly code. *)
Definition all_fair (ts : list task) : Prop :=
  forall t, t ∈ ts -> fair_task t /\ forall o, orderly (t.2 o).

(** The worlds reached from [(s0, ts0)] by operations called, calls in
    flight settling and React committing, in any order. *)
Inductive evolves (s0 : state) (ts0 : list task)
  : state -> list task -> Prop :=
| evolves_refl : evolves s0 ts0 s0 ts0
| evolves_invoke s ts op r :
    evolves s0 ts0 s ts ->
    r = run (invoke _VITE_API window op) s ->
    evolves s0 ts0 (reached r) (ts ++ pending r)
| evolves_settle s ts1 t ts2 o r :
    evolves s0 ts0 s (ts1 ++ t :: ts2) ->
    r = run (t.2 o) s ->
    evolves s0 ts0 (reached r) (ts1 ++ ts2 ++ pending r)
| evolves_commit s ts :
    evolves s0 ts0 s ts ->
    evolves s0 ts0 (render s) ts.

End Conduct.

(** * Properties *)

(** ** Values *)

(** A safe integer is its value. *)
Lemma safe_int_eq (a b : safe_int) : int_val a = int_val b -> a = b.
Proof.
  destruct a as [x Hx], b as [y Hy]. simpl. intros ->.
  f_equal. apply proof_irrel.
Qed.

Lemma same_value_refl (v : value) : same_value v v = true.
Proof.
  induction v as [| | b | n | s | fields IH] using value_fields_ind; simpl.
  - done.
  - done.
  - by destruct b.
  - by apply Z.eqb_refl.
  - by apply String.eqb_refl.
  - induction IH as [| [k x] l Hx _ IHl]; [done |].
    simpl in Hx. by rewrite String.eqb_refl, Hx, IHl.
Qed.

Lemma same_value_eq (a b : value) : same_value a b = true -> a = b.
Proof.
  revert b.
  induction a as [| | x | x | x | fields IH] using value_fields_ind;
    intros [| | y | y | y | gs]; simpl; try done.
  - intros H. f_equal. by apply Bool.eqb_prop.
  - intros H. f_equal. by apply safe_int_eq, Z.eqb_eq.
  - intros H. f_equal. by apply String.eqb_eq.
  - intros H. f_equal. revert gs H.
    induction IH as [| [k v] l Hv _ IHl]; intros [| [k' v'] gs']; try done.
    simpl in Hv. intros H.
    apply andb_prop in H as [H Hl]. apply andb_prop in H as [Hk Hvv].
    apply String.eqb_eq in Hk. apply Hv in Hvv. apply IHl in Hl.
    by subst.
Qed.

(** A field bound in an object literal is the one a lookup finds. *)
Lemma binds_field (fields : list (string * value)) (k : string) (v : value) :
  binds fields k v -> field k fields = v.
Proof.
  intros (before & after & -> & Hb).
  induction Hb as [| [k' v'] l Hk _ IH]; simpl.
  - by rewrite String.eqb_refl.
  - simpl in Hk. apply String.eqb_neq in Hk. by rewrite Hk.
Qed.

(** A lookup that finds something finds a bound field. *)
Lemma field_binds (fields : list (string * value)) (k : string) :
  field k fields <> Undefined -> binds fields k (field k fields).
Proof.
  induction fields as [| [k' v'] l IH]; simpl; [done |].
  destruct (String.eqb k' k) eqn:Hk.
  - apply String.eqb_eq in Hk. subst k'. intros _.
    exists [], l. split; [done | constructor].
  - intros H. destruct (IH H) as (before & after & Heq & Hb).
    exists ((k', v') :: before), after. split.
    + simpl. by rewrite <- Heq.
    + constructor; [| done]. simpl. by apply String.eqb_neq.
Qed.

(** The reason an error carries is the one the optional chain reads. *)
Lemma carries_reason (error m : value) : carries error m -> reason error = m.
Proof.
  intros (fe & fr & fd & -> & H1 & H2 & H3). unfold reason. simpl.
  rewrite (binds_field _ _ _ H1). simpl.
  rewrite (binds_field _ _ _ H2). simpl.
  by apply binds_field.
Qed.

(** What the optional chain reads, when it is something, is carried. *)
Lemma reason_carries (error : value) :
  reason error <> Undefined -> carries error (reason error).
Proof.
  unfold reason. destruct error as [| | | | | fe]; simpl; try done.
  destruct (field "response" fe) as [| | | | | fr] eqn:H1; simpl; try done.
  destruct (field "data" fr) as [| | | | | fd] eqn:H2; simpl; try done.
  intros H3. exists fe, fr, fd. split; [done |].
  split; [| split].
  - rewrite <- H1. apply field_binds. by rewrite H1.
  - rewrite <- H2. apply field_binds. by rewrite H2.
  - by apply field_binds.
Qed.

(** The message of a failure: the carried reason when it is non-empty,
    the generic message otherwise. *)
Lemma or_else_reason (error : value) (generic : string) :
  generic <> "" ->
  let message := or_else (reason error) (Str generic) in
  truthy message = true /\
  (forall m, carries error m -> truthy m = true -> message = m) /\
  ((forall m, carries error m -> truthy m = false) -> message = Str generic).
Proof.
  intros Hg. unfold or_else. split; [| split].
  - destruct (truthy (reason error)) eqn:Hr; [done |].
    simpl. by apply negb_true_iff, String.eqb_neq.
  - intros m Hm Ht. rewrite (carries_reason _ _ Hm). by rewrite Ht.
  - intros H. destruct (truthy (reason error)) eqn:Hr; [| done].
    rewrite (H (reason error)) in Hr; [done |].
    apply reason_carries. intros Hu. by rewrite Hu in Hr.
Qed.

(** ** The API base URL *)

Example API_URL_plain :
  API_URL (Some "https://chat.example.com") None = "https://chat.example.com/api".
Proof. reflexivity. Qed.

Example API_URL_slashes :
  API_URL (Some "https://chat.example.com/api///") None
  = "https://chat.example.com/api".
Proof. reflexivity. Qed.

Example API_URL_inner_slash :
  API_URL (Some "http://a//b/") None = "http://a//b/api".
Proof. reflexivity. Qed.

Example API_URL_origin :
  API_URL None (Some {| location := Some {| origin := "https://h" |} |})
  = "https://h/api".
Proof. reflexivity. Qed.




Lemma all_slashes_run (s : string) :
  all_slashes s = true -> exists n, s = slashes n.
Proof.
  induction s as [| c rest IH]; simpl.
  - intros _. by exists O.
  - intros H. apply andb_prop in H as [Hc Hrest].
    apply Ascii.eqb_eq in Hc. destruct (IH Hrest) as [n ->].
    exists (S n). by subst.
Qed.

Lemma strip_trailing_slashes_split (s : string) :
  exists n, s = strip_trailing_slashes s +:+ slashes n.
Proof.
  induction s as [| c rest [n IH]].
  - by exists O.
  - cbn [strip_trailing_slashes].
    destruct (all_slashes (String c rest)) eqn:Hall.
    + destruct (all_slashes_run _ Hall) as [m ->]. by exists m.
    + exists n.
      change (String c rest = String c (strip_trailing_slashes rest +:+ slashes n)).
      f_equal. exact IH.
Qed.

Lemma strip_trailing_slashes_end (s : string) :
  endsWith (strip_trailing_slashes s) "/" = false.
Proof.
  induction s as [| c rest IH]; [done |].
  cbn [strip_trailing_slashes].
  destruct (all_slashes (String c rest)) eqn:Hall; [done |].
  cbn [endsWith]. rewrite IH, orb_false_r.
  apply String.eqb_neq. intros Heq. injection Heq as Hc Hrest.
  destruct (strip_trailing_slashes_split rest) as [n Hn].
  rewrite Hrest in Hn. simpl in Hn, Hall.
  assert (all_slashes rest = true) as Hr.
  { rewrite Hn. clear. induction n as [| n IHn]; [done | by simpl]. }
  rewrite Hr, Hc in Hall. done.
Qed.

Lemma endsWith_app (a b : string) : endsWith (a +:+ b) b = true.
Proof.
  induction a as [| c a IH].
  - change ("" +:+ b) with b.
    destruct b; cbn [endsWith]; by rewrite String.eqb_refl.
  - change (String c a +:+ b) with (String c (a +:+ b)).
    cbn [endsWith]. rewrite IH. apply orb_true_r.
Qed.



Lemma all_slashes_slashes (n : nat) : all_slashes (slashes n) = true.
Proof. induction n as [| n IHn]; [done | by simpl]. Qed.

Lemma all_slashes_app_slashes (s : string) (n : nat) :
  all_slashes (s +:+ slashes n) = all_slashes s.
Proof.
  induction s as [| c s IH].
  - apply all_slashes_slashes.
  - change (String c s +:+ slashes n) with (String c (s +:+ slashes n)).
    cbn [all_slashes]. by rewrite IH.
Qed.

Lemma strip_trailing_slashes_app_slashes (s : string) (n : nat) :
  strip_trailing_slashes (s +:+ slashes n) = strip_trailing_slashes s.
Proof.
  induction s as [| c s IH].
  - change ("" +:+ slashes n) with (slashes n).
    destruct n as [| n]; [done |].
    cbn [strip_trailing_slashes slashes].
    change (String "/" (slashes n)) with (slashes (S n)).
    by rewrite all_slashes_slashes.
  - change (String c s +:+ slashes n) with (String c (s +:+ slashes n)).
    cbn [strip_trailing_slashes].
    change (String c (s +:+ slashes n)) with (String c s +:+ slashes n).
    rewrite all_slashes_app_slashes.
    destruct (all_slashes (String c s)); [done |]. by rewrite IH.
Qed.


(** A string that ends in ["/api"] is not a run of slashes. *)
Lemma endsWith_api_not_slashes (s : string) :
  endsWith s "/api" = true -> all_slashes s = false.
Proof.
  induction s as [| c s IH]; [done |].
  cbn [endsWith]. intros H. apply orb_prop in H as [H | H].
  - apply String.eqb_eq in H. by rewrite H.
  - cbn [all_slashes]. rewrite (IH H). apply andb_false_r.
Qed.

(** Nothing is stripped from a string that ends in ["/api"]. *)
Lemma strip_trailing_slashes_api (s : string) :
  endsWith s "/api" = true -> strip_trailing_slashes s = s.
Proof.
  induction s as [| c s IH]; [done |].
  intros H. cbn [strip_trailing_slashes].
  rewrite (endsWith_api_not_slashes _ H).
  cbn [endsWith] in H. apply orb_prop in H as [H | H].
  - apply String.eqb_eq in H. by injection H as -> ->.
  - by rewrite (IH H).
Qed.

(** Whatever the environment, the base ends in ["/api"]. *)
Lemma API_URL_suffix (_VITE_API : option string)
    (window : option Window) :
  endsWith (API_URL _VITE_API window) "/api" = true.
Proof.
  unfold API_URL.
  assert (endsWith
            match window with
            | Some {| location := Some loc |} => origin loc +:+ "/api"
            | _ => "/api"
            end "/api" = true) as Hfallback.
  { destruct window as [[[loc |]] |]; [apply endsWith_app | done | done]. }
  destruct _VITE_API as [v |]; [| exact Hfallback].
  destruct (truthy (Str v)); [| exact Hfallback].
  destruct (endsWith (strip_trailing_slashes v) "/api") eqn:He;
    [exact He | apply endsWith_app].
Qed.

(** An empty [VITE_API_URL] counts as unset. *)
Lemma API_URL_empty (window : option Window) :
  API_URL (Some "") window = API_URL None window.
Proof. reflexivity. Qed.

(** ** Rendering *)

Ltac render_cases s :=
  unfold render, token_effect;
  destruct (deps s) as [? |]; [destruct (same_value _ (token s)) |];
  try done; by destruct (truthy (token s)).

Lemma render_token (s : state) : token (render s) = token s.
Proof. render_cases s. Qed.

Lemma render_user (s : state) : user (render s) = user s.
Proof. render_cases s. Qed.

Lemma render_loading (s : state) : loading (render s) = loading s.
Proof. render_cases s. Qed.

Lemma token_effect_token (s : state) : token (token_effect s) = token s.
Proof. unfold token_effect. by destruct (truthy (token s)). Qed.

(** Nothing happens when the token is the one the effect last ran for. *)
Lemma render_same (s : state) : committed s -> render s = s.
Proof.
  intros H. unfold render. by rewrite H, same_value_refl.
Qed.

Lemma render_deps (s : state) : deps (render s) = Some (token s).
Proof.
  unfold render. destruct (deps s) as [d |] eqn:Hd; [| done].
  destruct (same_value d (token s)) eqn:Hsame; [| done].
  apply same_value_eq in Hsame. by subst d.
Qed.

(** A commit after a commit changes nothing. *)
Lemma render_idempotent (s : state) : render (render s) = render s.
Proof. apply render_same. unfold committed. by rewrite render_deps, render_token. Qed.

(** Whatever the stores held, the effect leaves them agreeing with the token. *)
Lemma token_effect_synced (s : state) :
  synced (with_deps (Some (token s)) (token_effect s)).
Proof.
  unfold synced, committed, paired, attached, persisted, token_effect.
  destruct (truthy (token s)) eqn:Ht; simpl; rewrite Ht; simpl.
  - by rewrite !lookup_insert_eq.
  - by rewrite !lookup_delete_eq.
Qed.

(** A commit restores agreement unless the stores were changed behind an
    unchanged token. *)
Lemma render_synced (s : state) :
  (committed s -> paired s) -> synced (render s).
Proof.
  intros H. unfold render.
  destruct (deps s) as [d |] eqn:Hd; [| apply token_effect_synced].
  destruct (same_value d (token s)) eqn:Hsame; [| apply token_effect_synced].
  apply same_value_eq in Hsame. subst d. split; auto.
Qed.

(** Agreement with the token, in terms of what the effect leaves. *)
Lemma paired_credential (s : state) :
  paired s <->
  attached s = credential (token s) /\ persisted s = stored (token s).
Proof. unfold paired, credential, stored. by destruct (truthy (token s)). Qed.

(** A commit restores agreement when header and store are as the effect
    left them for the token now set, if it ran for that one. *)
Lemma render_kept (s : state) : kept (token s) s -> synced (render s).
Proof.
  intros H. apply render_synced. intros Hc. apply paired_credential. by apply H.
Qed.

(** Where header and store agree with a committed token, they are as
    the effect left them, whatever token is set next. *)
Lemma synced_kept (s : state) (d : value) : synced s -> kept d s.
Proof.
  intros [Hc Hp] Hd. unfold committed in Hc. rewrite Hc in Hd.
  injection Hd as <-. by apply paired_credential.
Qed.

Lemma synced_anchored (s : state) : synced s -> anchored s.
Proof.
  intros [Hc Hp]. apply paired_credential in Hp as [Ha Hp].
  exists (token s). auto.
Qed.

(** A commit keeps the header as the effect last left it. *)
Lemma render_anchored (s : state) : anchored s -> anchored (render s).
Proof.
  intros (d & Hd & Ha & Hp). unfold render. rewrite Hd.
  destruct (same_value d (token s)) eqn:Hsame.
  - by exists d.
  - apply synced_anchored, token_effect_synced.
Qed.

(** Code that keeps its hands off keeps the header as the effect left
    it. *)
Lemma hands_off_anchored (s s' : state) :
  hands_off s s' -> anchored s -> anchored s'.
Proof.
  intros (Hd & Hh & Hl) (d & Hds & Ha & Hp). exists d.
  unfold attached, persisted in *. rewrite Hd, Hh.
  split; [done |]. split; [done |].
  destruct Hl as [-> | ->]; [done |]. right. apply lookup_delete_eq.
Qed.

(** Running the effect again for the token it last ran for changes
    nothing. *)
Lemma token_effect_again (s : state) : synced s -> token_effect s = s.
Proof.
  destruct s as [u l t d h ls].
  unfold synced, paired, attached, persisted, token_effect, setItem,
    removeItem, with_headers, with_localStorage.
  simpl. intros [_ Hp].
  destruct (truthy t); destruct Hp as [Ha Hp]; f_equal;
    by (apply insert_id || apply delete_id).
Qed.

Lemma synced_render (s : state) : synced s -> render s = s.
Proof. intros [H _]. by apply render_same. Qed.

Lemma synced_with_user (v : value) (s : state) :
  synced s -> synced (with_user v s).
Proof. by intros [H1 H2]. Qed.

Lemma synced_with_loading (b : bool) (s : state) :
  synced s -> synced (with_loading b s).
Proof. by intros [H1 H2]. Qed.

(** Setting the token, then committing. *)
Lemma synced_set_token (v : value) (s : state) :
  synced s -> synced (render (with_token v s)).
Proof.
  intros [Hd Hp]. apply render_synced. unfold committed in *. simpl.
  rewrite Hd. intros [= <-]. exact Hp.
Qed.

(** The [finally] block of [logout], then a commit: signed out, whatever
    the store held, the header being as the effect left it. *)
Lemma cleanup_anchored (s : state) :
  anchored s ->
  signed_out (render (removeItem "token" (with_token Null (with_user Null s)))).
Proof.
  intros (d & Hd & Ha & _).
  set (x := removeItem "token" (with_token Null (with_user Null s))).
  assert (synced (render x)) as [_ Hp].
  { apply render_synced. unfold committed, x. simpl. rewrite Hd.
    intros [= ->]. unfold paired, attached, persisted in *. simpl.
    split; [exact Ha | apply lookup_delete_eq]. }
  unfold signed_out. rewrite render_token, render_user.
  unfold paired in Hp. rewrite render_token in Hp. simpl in Hp.
  destruct Hp as [Hx Hy]. by repeat split.
Qed.

(** With nothing persisted and no token, a commit leaves nothing persisted. *)
Lemma render_persisted_none (s : state) :
  truthy (token s) = false -> persisted s = None -> persisted (render s) = None.
Proof.
  intros Ht Hp. unfold render, token_effect. rewrite Ht.
  destruct (deps s) as [d |]; [destruct (same_value d (token s)) |];
    try done; apply lookup_delete_eq.
Qed.

(** The [finally] block of [logout] changes nothing once signed out. *)
Lemma cleanup_signed_out (s : state) :
  user s = Null -> token s = Null -> persisted s = None ->
  removeItem "token" (with_token Null (with_user Null s)) = s.
Proof.
  destruct s as [u l t d h ls]. unfold persisted, removeItem. simpl.
  intros -> -> Hp. by rewrite delete_id.
Qed.

Lemma truthy_Str (t : string) : t <> "" -> truthy (Str t) = true.
Proof. intros H. simpl. by apply negb_true_iff, String.eqb_neq. Qed.

(** Reads [user], [token] and [loading] through commits and setters. *)
Ltac through_render :=
  repeat (progress (rewrite ?render_user, ?render_token, ?render_loading;
                    simpl)).

(** ** How each operation runs *)

#[local] Arguments render : simpl never.
#[local] Arguments API_URL : simpl never.

(** A property read throws nothing but a [TypeError]. *)
Lemma get_prop_throw (v : value) (k : string) (e : value) :
  get_prop v k = Throw e -> e = TypeError.
Proof. destruct v; simpl; congruence. Qed.

(** Unfolds a run and splits on every property read it meets. *)
Ltac by_cases :=
  repeat (simpl; unfold turn, settle, continuation; simpl;
          match goal with
          | |- context [match get_prop ?v ?k with _ => _ end] =>
              let H := fresh "Hget" in
              destruct (get_prop v k) eqn:H;
              [| apply get_prop_throw in H; subst ]
          end);
  simpl.

(** Exposes the test [checkAuth] makes on the token of its render. *)
Ltac open_checkAuth := unfold checkAuth.

Section Runs.

Variable _VITE_API : option string.
Variable window : option Window.

Local Abbreviation logout := (logout _VITE_API window).
Local Abbreviation checkAuth := (checkAuth _VITE_API window).
Local Abbreviation login := (login _VITE_API window).
Local Abbreviation register := (register _VITE_API window).
Local Abbreviation url path := (API_URL _VITE_API window +:+ path).

(** What [login] and [register] send. *)
Lemma run_login (email password : value) (s : state) :
  exists k,
    run (login email password) s
    = Ran s []
        (Await (POST (url "/auth/login")
                  (Obj [("email", email); ("password", password)])) k).
Proof. by eexists. Qed.

Lemma run_register (username email password : value) (s : state) :
  exists k,
    run (register username email password) s
    = Ran s []
        (Await (POST (url "/auth/register")
                  (Obj [("username", username); ("email", email);
                        ("password", password)])) k).
Proof. by eexists. Qed.

(** The rest of [login] and [register] once a payload has come. *)
Lemma run_login_resolved (email password response data u t : value)
    (s s' : state) :
  get_prop response "data" = Ok data ->
  get_prop data "user" = Ok u ->
  get_prop data "token" = Ok t ->
  run (continuation (login email password) s (Resolved response)) s'
  = Ran (with_token t (with_user u s')) [] (Done (Ok (success u))).
Proof. intros Hd Hu Ht. unfold continuation. simpl. by rewrite Hd, Hu, Ht. Qed.

Lemma run_register_resolved (username email password response data u t : value)
    (s s' : state) :
  get_prop response "data" = Ok data ->
  get_prop data "user" = Ok u ->
  get_prop data "token" = Ok t ->
  run (continuation (register username email password) s (Resolved response)) s'
  = Ran (with_token t (with_user u s')) [] (Done (Ok (success u))).
Proof. intros Hd Hu Ht. unfold continuation. simpl. by rewrite Hd, Hu, Ht. Qed.

(** The rest of [login] and [register] once the request is rejected
    with an error value. *)
Lemma run_login_rejected (email password error : value) (s s' : state) :
  nullish error = false ->
  run (continuation (login email password) s (Rejected error)) s'
  = Ran s' []
      (Done (Ok (failure (or_else (reason error) (Str "Login failed"))))).
Proof. by destruct error. Qed.

Lemma run_register_rejected (username email password error : value)
    (s s' : state) :
  nullish error = false ->
  run (continuation (register username email password) s (Rejected error)) s'
  = Ran s' []
      (Done (Ok (failure
                   (or_else (reason error) (Str "Registration failed"))))).
Proof. by destruct error. Qed.

Lemma exec_logout (o : outcome) (s : state) :
  exec [o] logout s
  = Ran (render (removeItem "token"
                   (with_token Null (with_user Null (render s)))))
      [] (Done (Ok Undefined)).
Proof. by destruct o. Qed.

Lemma exec_login_resolved (email password response data u t : value)
    (s : state) :
  get_prop response "data" = Ok data ->
  get_prop data "user" = Ok u ->
  get_prop data "token" = Ok t ->
  exec [Resolved response] (login email password) s
  = Ran (render (with_token t (with_user u (render s)))) []
      (Done (Ok (success u))).
Proof. intros Hd Hu Ht. simpl. unfold turn. simpl. by rewrite Hd, Hu, Ht. Qed.

Lemma exec_login_rejected (email password error : value) (s : state) :
  nullish error = false ->
  exec [Rejected error] (login email password) s
  = Ran (render (render s)) []
      (Done (Ok (failure (or_else (reason error) (Str "Login failed"))))).
Proof. by destruct error. Qed.

(** A response with no payload to destructure counts as a failure:
    nothing is set, and the generic message is returned. *)
Lemma exec_login_unreadable (email password response : value) (s : state) :
  (get_prop response "data" = Throw TypeError \/
   exists data, get_prop response "data" = Ok data /\ nullish data = true) ->
  exec [Resolved response] (login email password) s
  = Ran (render (render s)) [] (Done (Ok (failure (Str "Login failed")))).
Proof.
  intros [H | (data & H & Hn)]; simpl; unfold turn; simpl; rewrite H; simpl;
    [done |].
  by destruct data.
Qed.

(** [error.response] is read without a guard: were the rejection [null]
    or [undefined], which axios does not reject with, the [catch] block
    itself would throw. *)
Lemma exec_login_rejected_nullish (email password error : value) (s : state) :
  nullish error = true ->
  exec [Rejected error] (login email password) s
  = Ran (render (render s)) [] (Done (Throw TypeError)).
Proof. by destruct error. Qed.

Lemma run_logout (s : state) :
  run logout s
  = Ran s [] (Await (POST (url "/auth/logout") Undefined) logout_settled).
Proof. reflexivity. Qed.

Lemma run_logout_settled (o : outcome) (s : state) :
  run (logout_settled o) s
  = Ran (removeItem "token" (with_token Null (with_user Null s))) []
      (Done (Ok Undefined)).
Proof. by destruct o. Qed.

(** Created by a render with no token, [checkAuth] returns at once
    without a request. *)
Lemma run_checkAuth_no_token (captured : value) (s : state) :
  truthy captured = false ->
  run (checkAuth captured) s
  = Ran (with_loading false (with_loading false s)) [] (Done (Ok Undefined)).
Proof. intros Ht. open_checkAuth. by rewrite Ht. Qed.

(** Created by a render with a token, it sends the query. *)
Lemma run_checkAuth_token (captured : value) (s : state) :
  truthy captured = true ->
  exists k,
    run (checkAuth captured) s = Ran s [] (Await (GET (url "/auth/me")) k) /\
    forall o s', loading (reached (run (k o) s')) = false.
Proof.
  intros Ht. open_checkAuth. rewrite Ht. simpl.
  eexists. split; [reflexivity |].
  intros o s'. destruct o; by_cases; done.
Qed.

Lemma exec_checkAuth_no_token (captured : value) (os : list outcome)
    (s : state) :
  truthy captured = false ->
  exec os (checkAuth captured) s
  = Ran (render (with_loading false (with_loading false s)))
      [] (Done (Ok Undefined)).
Proof.
  intros Ht. open_checkAuth. rewrite Ht. by destruct os.
Qed.

Lemma exec_checkAuth_fails (captured : value) (o : outcome) (s : state) :
  truthy captured = true ->
  restore_fails o = true ->
  exec [o] (checkAuth captured) s
  = Ran (render (with_loading false (render s)))
      [(POST (url "/auth/logout") Undefined, logout_settled)]
      (Done (Ok Undefined)).
Proof.
  intros Ht Hf. open_checkAuth. rewrite Ht.
  simpl. unfold turn. simpl.
  destruct o as [response | error]; simpl; [| done].
  simpl in Hf. destruct (get_prop response "data") as [data | e]; [| done].
  by destruct data.
Qed.

Lemma exec_checkAuth_succeeds (captured response data u : value) (s : state) :
  truthy captured = true ->
  get_prop response "data" = Ok data ->
  get_prop data "user" = Ok u ->
  exec [Resolved response] (checkAuth captured) s
  = Ran (render (with_loading false (with_user u (render s)))) []
      (Done (Ok Undefined)).
Proof.
  intros Ht Hd Hu. open_checkAuth. rewrite Ht.
  simpl. unfold turn. simpl. by rewrite Hd, Hu.
Qed.

End Runs.

(** ** What the provider leaves alone *)

Lemma render_headers_other (s : state) (k : string) :
  k <> "Authorization" -> headers (render s) !! k = headers s !! k.
Proof.
  intros Hk. unfold render, token_effect.
  destruct (deps s) as [d |]; [destruct (same_value d (token s)) |];
    try done; destruct (truthy (token s)); simpl;
    by (rewrite lookup_insert_ne || rewrite lookup_delete_ne).
Qed.

Lemma render_store_other (s : state) (k : string) :
  k <> "token" -> localStorage (render s) !! k = localStorage s !! k.
Proof.
  intros Hk. unfold render, token_effect.
  destruct (deps s) as [d |]; [destruct (same_value d (token s)) |];
    try done; destruct (truthy (token s)); simpl;
    by (rewrite lookup_insert_ne || rewrite lookup_delete_ne).
Qed.

Lemma calm_refl (s : state) : calm s s.
Proof. unfold calm, others_kept, loading_settled. auto. Qed.

Lemma calm_trans (s1 s2 s3 : state) : calm s1 s2 -> calm s2 s3 -> calm s1 s3.
Proof.
  intros [[Hh1 Hl1] Hs1] [[Hh2 Hl2] Hs2]. repeat split.
  - intros k Hk. by rewrite Hh2, Hh1.
  - intros k Hk. by rewrite Hl2, Hl1.
  - intros H. by apply Hs2, Hs1.
Qed.

(** A commit keeps the other entries and [loading]. *)
Lemma calm_render (s : state) : calm s (render s).
Proof.
  split; [split |].
  - intros k Hk. by apply render_headers_other.
  - intros k Hk. by apply render_store_other.
  - intros H. by rewrite render_loading.
Qed.

(** Code that keeps its hands off keeps the other entries. *)
Lemma hands_off_others (s s' : state) : hands_off s s' -> others_kept s s'.
Proof.
  intros (_ & Hh & Hl). split.
  - intros k _. by rewrite Hh.
  - intros k Hk. destruct Hl as [-> | ->]; [done |].
    by rewrite lookup_delete_ne.
Qed.

(** Closes [hands_off s s' /\ loading_settled s s'] where [s'] is [s]
    after setters and [removeItem "token"]. *)
Ltac hands_off :=
  simpl; unfold hands_off, loading_settled; simpl; auto.

Lemma orderly_returns (_VITE_API : option string) (window : option Window)
    (p : proc) :
  (forall s, (hands_off s (reached (run p s)) /\
              loading_settled s (reached (run p s))) /\
             pending (run p s) = []) ->
  orderly _VITE_API window p.
Proof.
  intros H. apply orderly_intro.
  - intros s. apply H.
  - intros s t Ht. destruct (H s) as [_ Hnil].
    rewrite Hnil in Ht. by apply elem_of_nil in Ht.
Qed.

Section Orderly.

Variable _VITE_API : option string.
Variable window : option Window.

Local Abbreviation orderly := (orderly _VITE_API window).
Local Abbreviation fair_task := (fair_task _VITE_API window).
Local Abbreviation auth_request := (auth_request _VITE_API window).
Local Abbreviation url path := (API_URL _VITE_API window +:+ path).

Lemma orderly_awaits (p : proc) (req : request) (k : outcome -> proc) :
  (forall s, run p s = Ran s [] (Await req k)) ->
  fair_task (req, k) ->
  (forall o, orderly (k o)) ->
  orderly p.
Proof.
  intros Hrun Hfair Hk. apply orderly_intro.
  - intros s. rewrite Hrun. hands_off.
  - intros s t Ht. rewrite Hrun in Ht. unfold pending in Ht. simpl in Ht.
    apply list_elem_of_singleton in Ht. by subst t.
Qed.

Lemma orderly_logout_settled (o : outcome) : orderly (logout_settled o).
Proof.
  apply orderly_returns. intros s. rewrite run_logout_settled.
  split; [| done]. hands_off.
Qed.

Lemma fair_revoke :
  fair_task (POST (url "/auth/logout") Undefined, logout_settled).
Proof. split; [right; by left | done]. Qed.

Lemma orderly_logout : orderly (logout _VITE_API window).
Proof.
  eapply orderly_awaits;
    [apply run_logout | apply fair_revoke | apply orderly_logout_settled].
Qed.

Lemma orderly_login (email password : value) :
  orderly (login _VITE_API window email password).
Proof.
  eapply orderly_awaits; [reflexivity | |].
  - split; [| done]. right; right; left. by exists email, password.
  - intros o. apply orderly_returns. intros s.
    destruct o; by_cases; unfold pending; simpl; (split; [| done]);
      hands_off.
Qed.

Lemma orderly_register (username email password : value) :
  orderly (register _VITE_API window username email password).
Proof.
  eapply orderly_awaits; [reflexivity | |].
  - split; [| done]. right; right; right. by exists username, email, password.
  - intros o. apply orderly_returns. intros s.
    destruct o; by_cases; unfold pending; simpl; (split; [| done]);
      hands_off.
Qed.

Lemma orderly_handleOAuthSuccess (token userData : value) :
  orderly (handleOAuthSuccess token userData).
Proof.
  apply orderly_returns. intros s. simpl. unfold pending. simpl.
  split; [| done]. hands_off.
Qed.

Lemma orderly_checkAuth (captured : value) :
  orderly (checkAuth _VITE_API window captured).
Proof.
  destruct (truthy captured) eqn:Hc.
  - apply orderly_intro.
    + intros s. open_checkAuth. rewrite Hc. hands_off.
    + intros s t Ht. revert Ht. unfold pending. open_checkAuth.
      rewrite Hc. simpl.
      intros ->%list_elem_of_singleton. split; [split |].
      * by left.
      * intros _ o s'. destruct o; by_cases; done.
      * intros o. simpl. apply orderly_intro.
        -- intros s'. destruct o; by_cases; hands_off.
        -- intros s' t' Ht'. unfold pending in Ht'.
           destruct o; by_cases; revert Ht'; by_cases; intros Ht';
             try (by apply elem_of_nil in Ht');
             apply list_elem_of_singleton in Ht'; subst t';
             (split; [apply fair_revoke | apply orderly_logout_settled]).
  - apply orderly_returns. intros s. rewrite run_checkAuth_no_token by done.
    split; [| done]. hands_off.
Qed.

Lemma orderly_invoke (op : operation) : orderly (invoke _VITE_API window op).
Proof.
  destruct op; simpl.
  - apply orderly_checkAuth.
  - apply orderly_login.
  - apply orderly_register.
  - apply orderly_logout.
  - apply orderly_handleOAuthSuccess.
Qed.

(** A run of orderly code keeps its hands off and leaves fair tasks
    running orderly code. *)
Lemma run_orderly (p : proc) (s : state) :
  orderly p ->
  hands_off s (reached (run p s)) /\
  loading_settled s (reached (run p s)) /\
  forall t, t ∈ pending (run p s) -> fair_task t /\ forall o, orderly (t.2 o).
Proof.
  intros Hp. destruct Hp as [p H1 H2].
  destruct (H1 s) as [Ha Hb]. split; [exact Ha |]. split; [exact Hb |].
  apply H2.
Qed.

End Orderly.

Lemma in_flight_settled (ts1 ts2 : list task) (t : task) :
  t ∈ (ts1 ++ t :: ts2)%list.
Proof. rewrite elem_of_app, elem_of_cons. auto. Qed.

Lemma in_flight_before (ts1 ts2 : list task) (t t' : task) :
  t' ∈ ts1 -> t' ∈ (ts1 ++ t :: ts2)%list.
Proof. rewrite elem_of_app. auto. Qed.

Lemma in_flight_after (ts1 ts2 : list task) (t t' : task) :
  t' ∈ ts2 -> t' ∈ (ts1 ++ t :: ts2)%list.
Proof. rewrite elem_of_app, elem_of_cons. auto. Qed.

(** ** The worlds the provider goes through *)

(** Exposes the effects of the first commit. *)
Ltac open_mount := unfold mounted, mount_effects.

Section Worlds.

Variable _VITE_API : option string.
Variable window : option Window.

Local Abbreviation orderly := (orderly _VITE_API window).
Local Abbreviation fair_task := (fair_task _VITE_API window).
Local Abbreviation all_fair := (all_fair _VITE_API window).
Local Abbreviation evolves := (evolves _VITE_API window).
Local Abbreviation reachable := (reachable _VITE_API window).
Local Abbreviation mount_effects := (mount_effects _VITE_API window).
Local Abbreviation mounted := (mounted _VITE_API window).
Local Abbreviation url path := (API_URL _VITE_API window +:+ path).

(** One step of orderly code: the other entries and [loading] are kept,
    the header stays as the effect left it, and what is in flight is
    fair. *)
Lemma step_orderly (p : proc) (s : state) (ts : list task) :
  orderly p -> all_fair ts ->
  calm s (reached (run p s)) /\
  (anchored s -> anchored (reached (run p s))) /\
  (loading s = false -> loading (reached (run p s)) = false) /\
  all_fair (ts ++ pending (run p s)).
Proof.
  intros Hp Hts.
  destruct (run_orderly _VITE_API window p s Hp) as (Hh & Hl & Hq).
  split; [split; [by apply hands_off_others | exact Hl] |].
  split; [by apply hands_off_anchored |]. split; [exact Hl |].
  intros t Ht. apply elem_of_app in Ht as [Ht | Ht]; auto.
Qed.

Lemma all_fair_settled (ts1 ts2 : list task) (t : task) :
  all_fair (ts1 ++ t :: ts2) ->
  (fair_task t /\ forall o, orderly (t.2 o)) /\ all_fair (ts1 ++ ts2).
Proof.
  intros H. split; [apply H, in_flight_settled |].
  intros t' Ht'. apply elem_of_app in Ht' as [Ht' | Ht'];
    apply H; eauto using in_flight_before, in_flight_after.
Qed.

Lemma evolves_calm (s0 : state) (ts0 : list task) (s : state)
    (ts : list task) :
  all_fair ts0 -> evolves s0 ts0 s ts ->
  calm s0 s /\ all_fair ts /\ (anchored s0 -> anchored s).
Proof.
  intros H0.
  induction 1 as [| s ts op r _ (IHs & IHt & IHa) ->
                 | s ts1 t ts2 o r _ (IHs & IHt & IHa) ->
                 | s ts _ (IHs & IHt & IHa)].
  - split; [apply calm_refl | auto].
  - destruct (step_orderly _ s ts (orderly_invoke _VITE_API window op) IHt)
      as (H1 & H2 & _ & H3).
    split; [by eapply calm_trans |]. auto.
  - destruct (all_fair_settled _ _ _ IHt) as [[_ Ht] Hrest].
    destruct (step_orderly _ s _ (Ht o) Hrest) as (H1 & H2 & _ & H3).
    rewrite app_assoc.
    split; [by eapply calm_trans |]. auto.
  - split; [eapply calm_trans; [exact IHs | apply calm_render] |].
    split; [exact IHt |]. intros Ha. by apply render_anchored, IHa.
Qed.

Lemma reached_turn (p : proc) (s : state) :
  reached (turn p s) = render (reached (run p s)).
Proof. unfold turn. by destruct (run p s). Qed.

Lemma pending_turn (p : proc) (s : state) :
  pending (turn p s) = pending (run p s).
Proof. unfold turn. by destruct (run p s). Qed.

(** The first commit is a commit followed by the [checkAuth] of the first
    render. *)
Lemma run_mount_effects (s : state) :
  reached (run mount_effects s)
  = reached (run (checkAuth _VITE_API window (token s)) (render s)) /\
  pending (run mount_effects s)
  = pending (run (checkAuth _VITE_API window (token s)) (render s)).
Proof.
  open_mount. unfold pending. simpl.
  destruct (run (checkAuth _VITE_API window (token s)) (render s))
    as [s1 ts [r | req k]]; simpl; [by rewrite app_nil_r |].
  by rewrite app_nil_r.
Qed.

(** Nothing [checkAuth] does before it suspends or returns needs a
    commit. *)
Lemma run_checkAuth_committed (captured : value) (s : state) :
  committed s ->
  committed (reached (run (checkAuth _VITE_API window captured) s)).
Proof.
  intros Hs. destruct (truthy captured) eqn:Hc.
  - destruct (run_checkAuth_token _VITE_API window captured s Hc)
      as (k & -> & _). exact Hs.
  - by rewrite run_checkAuth_no_token.
Qed.

(** The effects of the first commit leave nothing to commit. *)
Lemma mounted_run (hdrs store : gmap string string) :
  reached (mounted hdrs store)
  = reached (run mount_effects (first_render hdrs store)) /\
  pending (mounted hdrs store)
  = pending (run mount_effects (first_render hdrs store)).
Proof.
  open_mount. fold mount_effects. rewrite reached_turn, pending_turn.
  split; [| done]. apply render_same.
  destruct (run_mount_effects (first_render hdrs store)) as [-> _].
  apply run_checkAuth_committed. unfold committed.
  by rewrite render_deps, render_token.
Qed.

Lemma first_commit_synced (hdrs store : gmap string string) :
  synced (render (first_render hdrs store)).
Proof. apply render_synced. by unfold committed. Qed.

(** The first commit: what was on the header and in the store besides
    the token is kept, the header and the store agree with the token, the
    call in flight is fair, and [loading] is true only with the "who am
    I" query in flight. *)
Lemma mounted_calm (hdrs store : gmap string string) :
  calm (first_render hdrs store) (reached (mounted hdrs store)) /\
  all_fair (pending (mounted hdrs store)) /\
  (loading (reached (mounted hdrs store)) = true ->
   exists t, t ∈ pending (mounted hdrs store) /\ t.1 = GET (url "/auth/me")) /\
  synced (reached (mounted hdrs store)).
Proof.
  destruct (mounted_run hdrs store) as [-> ->].
  set (s0 := first_render hdrs store).
  destruct (run_mount_effects s0) as [-> ->].
  pose proof (first_commit_synced hdrs store) as Hs. fold s0 in Hs.
  assert (all_fair []) as Hnil by (intros t Ht; by apply elem_of_nil in Ht).
  destruct (step_orderly _ (render s0) []
              (orderly_checkAuth _VITE_API window (token s0)) Hnil)
    as (H1 & _ & _ & H3).
  split; [eapply calm_trans; [apply calm_render | exact H1] |].
  split; [exact H3 |].
  destruct (truthy (token s0)) eqn:Hc.
  - destruct (run_checkAuth_token _VITE_API window _ (render s0) Hc)
      as (k & -> & _).
    split; [| exact Hs]. intros _. exists (GET (url "/auth/me"), k).
    split; [| done]. unfold pending. simpl. by apply list_elem_of_singleton.
  - rewrite run_checkAuth_no_token by done. simpl.
    split; [done |]. by do 2 apply synced_with_loading.
Qed.

Lemma evolves_mounted (hdrs store : gmap string string) (s : state)
    (ts : list task) :
  evolves (reached (mounted hdrs store)) (pending (mounted hdrs store)) s ts ->
  calm (first_render hdrs store) s /\ all_fair ts /\
  (loading s = true -> exists t, t ∈ ts /\ t.1 = GET (url "/auth/me")) /\
  anchored s.
Proof.
  induction 1 as [| s ts op r _ (IHs & IHt & IHl & IHa) ->
                 | s ts1 t ts2 o r _ (IHs & IHt & IHl & IHa) ->
                 | s ts _ (IHs & IHt & IHl & IHa)].
  - destruct (mounted_calm hdrs store) as (H1 & H2 & H3 & H4).
    auto using synced_anchored.
  - destruct (step_orderly _ s ts (orderly_invoke _VITE_API window op) IHt)
      as (H1 & H2 & H3 & H4).
    split; [by eapply calm_trans |]. split; [exact H4 |].
    split; [| auto]. intros Hl. destruct (loading s) eqn:Hs.
    + destruct (IHl eq_refl) as (t & Ht & Hme).
      exists t. split; [| done]. apply elem_of_app. by left.
    + rewrite (H3 eq_refl) in Hl. done.
  - destruct (all_fair_settled _ _ _ IHt) as [[Hfair Ht] Hrest].
    destruct (step_orderly _ s _ (Ht o) Hrest) as (H1 & H2 & H3 & H4).
    rewrite app_assoc.
    split; [by eapply calm_trans |]. split; [exact H4 |].
    split; [| auto]. intros Hl. destruct (loading s) eqn:Hs.
    + destruct (IHl eq_refl) as (t' & Ht' & Hme).
      rewrite elem_of_app, elem_of_cons in Ht'.
      destruct Ht' as [Ht' | [-> | Ht']].
      * exists t'. split; [| done]. rewrite !elem_of_app. auto.
      * destruct Hfair as [_ Hfair]. rewrite (Hfair Hme) in Hl. done.
      * exists t'. split; [| done]. rewrite !elem_of_app. auto.
    + rewrite (H3 eq_refl) in Hl. done.
  - split; [eapply calm_trans; [exact IHs | apply calm_render] |].
    split; [exact IHt |]. rewrite render_loading.
    split; [exact IHl | by apply render_anchored].
Qed.

(** A reachable world is one the provider evolves into from a mount. *)
Lemma reachable_evolves (s : state) (ts : list task) :
  reachable s ts ->
  exists hdrs store,
    evolves (reached (mounted hdrs store)) (pending (mounted hdrs store)) s ts.
Proof.
  induction 1 as [hdrs store r -> | s ts op r _ (hdrs & store & IH) ->
                 | s ts1 t ts2 o r _ (hdrs & store & IH) ->
                 | s ts _ (hdrs & store & IH)].
  - exists hdrs, store. apply evolves_refl.
  - exists hdrs, store. by eapply evolves_invoke.
  - exists hdrs, store. by eapply evolves_settle.
  - exists hdrs, store. by eapply evolves_commit.
Qed.

(** What a reachable world evolves into is reachable. *)
Lemma evolves_reachable (s0 : state) (ts0 : list task) (s : state)
    (ts : list task) :
  reachable s0 ts0 -> evolves s0 ts0 s ts -> reachable s ts.
Proof.
  intros H0. induction 1 as [| s ts op r _ IH -> | s ts1 t ts2 o r _ IH ->
                            | s ts _ IH].
  - exact H0.
  - by eapply reach_invoke.
  - by eapply reach_settle.
  - by eapply reach_commit.
Qed.

(** In every reachable world the header is as the token effect last left
    it, and the store too unless the token has been removed from it
    since. *)
Lemma reachable_anchored (s : state) (ts : list task) :
  reachable s ts -> anchored s.
Proof.
  intros H. destruct (reachable_evolves _ _ H) as (hdrs & store & He).
  by destruct (evolves_mounted _ _ _ _ He) as (_ & _ & _ & Ha).
Qed.

End Worlds.

(** Steps through the worlds, one call or one settlement at a time. *)
Lemma reach_call (_VITE_API : option string) (window : option Window)
    (s : state) (ts : list task) (op : operation) :
  reachable _VITE_API window s ts ->
  reachable _VITE_API window (reached (run (invoke _VITE_API window op) s))
    (ts ++ pending (run (invoke _VITE_API window op) s)).
Proof. intros H. by eapply reach_invoke. Qed.

Lemma reach_settle_only (_VITE_API : option string) (window : option Window)
    (s : state) (t : task) (o : outcome) :
  reachable _VITE_API window s [t] ->
  reachable _VITE_API window (reached (run (t.2 o) s))
    (pending (run (t.2 o) s)).
Proof.
  intros H. by apply (reach_settle _VITE_API window s [] t [] o _ H).
Qed.

(** ** The session *)

Section Session.

Variable _VITE_API : option string.
Variable window : option Window.

Local Abbreviation logout := (logout _VITE_API window).
Local Abbreviation checkAuth := (checkAuth _VITE_API window).
Local Abbreviation login := (login _VITE_API window).
Local Abbreviation register := (register _VITE_API window).
Local Abbreviation mount_effects := (mount_effects _VITE_API window).
Local Abbreviation reachable := (reachable _VITE_API window).
Local Abbreviation url path := (API_URL _VITE_API window +:+ path).

(** C3: from every reachable state, and however the revoke call settles,
    [logout] ends with token and user empty, the header detached and the
    persisted token erased, and it returns normally. *)
Theorem logout_signs_out (s : state) (ts : list task) (o : outcome) :
  reachable s ts ->
  let r := exec [o] logout s in
  signed_out (reached r) /\ stands r = Done (Ok Undefined) /\ started r = [].
Proof.
  intros H. apply reachable_anchored in H.
  rewrite exec_logout. simpl. split; [| done].
  by apply cleanup_anchored, render_anchored.
Qed.

(** C4: a second [logout] changes nothing: the state after two calls in
    a row is the state after one, however the two revoke calls settle. *)
Theorem logout_idempotent (s : state) (o1 o2 : outcome) :
  reached (exec [o2] logout (reached (exec [o1] logout s)))
  = reached (exec [o1] logout s).
Proof.
  rewrite !exec_logout. simpl.
  set (x := removeItem "token" (with_token Null (with_user Null (render s)))).
  rewrite render_idempotent, cleanup_signed_out;
    [apply render_idempotent | | |].
  - by rewrite render_user.
  - by rewrite render_token.
  - apply render_persisted_none; [done |]. apply lookup_delete_eq.
Qed.

(** C8: mounted over a store with no token, the provider ends anonymous:
    token and user empty, [loading] false, no header; and nothing was
    requested: no call is awaited or in flight. *)
Theorem mount_without_token (hdrs store : gmap string string) :
  store !! "token" = None ->
  let r := exec [] mount_effects (first_render hdrs store) in
  token (reached r) = Null /\ user (reached r) = Null /\
  loading (reached r) = false /\ attached (reached r) = None /\
  pending r = [] /\ stands r = Done (Ok Undefined).
Proof.
  intros Hstore. simpl. unfold turn, first_render, getItem. rewrite Hstore.
  simpl.
  unfold pending. simpl.
  repeat split; try done.
  unfold attached, render, token_effect. simpl. apply lookup_delete_eq.
Qed.

(** C1, amended: when the login request resolves with a payload whose
    token is non-empty, and header and store are as the token effect left
    them if it last ran for that very token, then, React committing next,
    the session has the payload's user and token, the token is on the
    header and in the store, and the call returns the success result with
    the profile. *)
Theorem login_success_signs_in (email password response data u t : value)
    (s s' : state) :
  get_prop response "data" = Ok data ->
  get_prop data "user" = Ok u ->
  get_prop data "token" = Ok t ->
  truthy t = true ->
  kept t s' ->
  let r := run (continuation (login email password) s (Resolved response)) s' in
  signed_in u t (render (reached r)) /\ stands r = Done (Ok (success u)) /\
  started r = [].
Proof.
  intros Hd Hu Ht Htruthy Hk.
  rewrite (run_login_resolved _ _ _ _ _ _ _ _ s s' Hd Hu Ht). simpl.
  split; [| done].
  destruct (render_kept (with_token t (with_user u s'))) as [_ Hp];
    [exact Hk |].
  unfold signed_in. rewrite render_user, render_token.
  unfold paired in Hp. rewrite render_token in Hp. simpl in Hp.
  rewrite Htruthy in Hp. destruct Hp as [Ha Hp]. auto.
Qed.

(** C2, amended: when the login request is rejected with an error value,
    the state is what it was, before the request and after the rejection;
    the call returns normally, and what it returns is the failure result
    with a non-empty reason: the reason the error payload carries when
    that is non-empty, ["Login failed"] when the error carries none or an
    empty one. *)
Theorem login_failure_keeps_state (email password error : value)
    (s s' : state) :
  nullish error = false ->
  let r := run (continuation (login email password) s (Rejected error)) s' in
  reached (run (login email password) s) = s /\
  reached r = s' /\ started r = [] /\
  exists message,
    stands r = Done (Ok (failure message)) /\
    truthy message = true /\
    (forall m, carries error m -> truthy m = true -> message = m) /\
    ((forall m, carries error m -> truthy m = false) ->
     message = Str "Login failed").
Proof.
  intros Herr. rewrite run_login_rejected by done. simpl.
  repeat split.
  exists (or_else (reason error) (Str "Login failed")).
  split; [done |]. by apply or_else_reason.
Qed.


(** C6, amended: each operation, run on its own, keeps "no user without
    a token" provided the token it is given is non-empty: the token in
    the payload of a [login] or [register] response, the token passed to
    [handleOAuthSuccess], and for [checkAuth] the token of the session
    when the token of the render it comes from is.  For [checkAuth] this
    covers the revoke call it may leave in flight. *)
Theorem user_needs_token_kept (s : state) :
  user_needs_token s ->
  (forall email password o,
     token_supplied o = true ->
     user_needs_token (reached (exec [o] (login email password) s))) /\
  (forall username email password o,
     token_supplied o = true ->
     user_needs_token
       (reached (exec [o] (register username email password) s))) /\
  (forall o, user_needs_token (reached (exec [o] logout s))) /\
  (forall captured o,
     (truthy captured = true -> truthy (token s) = true) ->
     let r := exec [o] (checkAuth captured) s in
     user_needs_token (reached r) /\
     forall t o', t ∈ started r ->
       user_needs_token (reached (settle t o' (reached r)))) /\
  (forall t u,
     truthy t = true ->
     user_needs_token (reached (exec [] (handleOAuthSuccess t u) s))).
Proof.
  intros Hinv. unfold user_needs_token in *.
  split; [| split; [| split; [| split]]].
  - intros email password o Ho. revert Ho.
    destruct o; by_cases; through_render;
      intros; auto; congruence.
  - intros username email password o Ho. revert Ho.
    destruct o; by_cases; through_render;
      intros; auto; congruence.
  - intros o. rewrite exec_logout. simpl.
    rewrite render_user. simpl. done.
  - intros captured o Hc. destruct (truthy captured) eqn:Ht.
    + specialize (Hc eq_refl). open_checkAuth. rewrite Ht.
      destruct o; by_cases; through_render;
        (split; [by auto |]); intros t o' Hin;
        try (by apply elem_of_nil in Hin);
        apply list_elem_of_singleton in Hin; subst t;
        unfold settle, turn; simpl;
        change (finally _ _) with (logout_settled o');
        rewrite run_logout_settled; by through_render.
    + rewrite exec_checkAuth_no_token by done. through_render.
      split; [exact Hinv |]. intros t o' Hin. by apply elem_of_nil in Hin.
  - intros t u Ht _. simpl. unfold turn. simpl. by rewrite render_token.
Qed.

(** C9: [register] differs from [login] in the request it issues only:
    it posts the three fields to [/auth/register] where [login] posts the
    two credentials to [/auth/login]; then, for every outcome of the
    request, it leaves the state [login] leaves, with the same calls in
    flight, and returns what [login] returns, a failure with its own
    generic message where [login] returns one with its generic message. *)
Theorem register_as_login (username email password : value) (o : outcome)
    (s s' : state) :
  (exists k,
     run (register username email password) s
     = Ran s []
         (Await (POST (url "/auth/register")
                   (Obj [("username", username); ("email", email);
                         ("password", password)])) k)) /\
  (exists k,
     run (login email password) s
     = Ran s []
         (Await (POST (url "/auth/login")
                   (Obj [("email", email); ("password", password)])) k)) /\
  let r := run (continuation (register username email password) s o) s' in
  let l := run (continuation (login email password) s o) s' in
  reached r = reached l /\ started r = started l /\
  (stands r = stands l \/
   (stands l = Done (Ok (failure (Str "Login failed"))) /\
    stands r = Done (Ok (failure (Str "Registration failed"))))).
Proof.
  split; [apply run_register |]. split; [apply run_login |].
  destruct o as [response | error]; by_cases; auto.
  unfold or_else.
  match goal with |- context [truthy ?x] => destruct (truthy x) end; auto.
Qed.

End Session.


(** ** Concrete runs *)

Lemma mounted_anonymous_reachable :
  reachable None None (reached mounted_anonymous) (pending mounted_anonymous).
Proof. by eapply reach_mount. Qed.

Lemma mounted_restoring_reachable :
  reachable None None (reached mounted_restoring) (pending mounted_restoring).
Proof. by eapply reach_mount. Qed.

(** Signed in with the stored token: reachable, committed, header and
    store agreeing with the token. *)
Lemma restored_reachable :
  reachable None None restored [] /\ synced restored /\
  token restored = Str "abc" /\ user restored = Obj [("id", Num one)].
Proof.
  split; [| by vm_compute].
  pose proof mounted_restoring_reachable as H.
  apply (reach_settle_only _ _ _ _ (Resolved me_response)) in H.
  apply reach_commit in H. exact H.
Qed.

(** A logout run to its end is a reachable world before React commits. *)
Lemma logged_out_reachable : reachable None None logged_out [].
Proof.
  destruct restored_reachable as [H _].
  apply (reach_call _ _ _ _ Logout) in H.
  apply (reach_settle_only _ _ _ _ (Resolved Undefined)) in H.
  exact H.
Qed.

(** The scenarios of the specification. *)

Example restore_accepted :
  let me := Obj [("data", Obj [("user", Obj [("id", Num one); ("name", Str "A")])])] in
  let r := exec [Resolved me] (checkAuth None None (Str "abc"))
             (reached mounted_restoring) in
  token (reached r) = Str "abc" /\
  user (reached r) = Obj [("id", Num one); ("name", Str "A")] /\
  loading (reached r) = false /\
  attached (reached r) = Some "Bearer abc".
Proof. by vm_compute. Qed.

Example login_accepted :
  let r := exec [Resolved (login_response (Str "xyz"))]
             (login None None (Str "a@b.com") (Str "pw"))
             (reached mounted_anonymous) in
  token (reached r) = Str "xyz" /\
  user (reached r) = Obj [("id", Num two)] /\
  persisted (reached r) = Some "xyz".
Proof. by vm_compute. Qed.

Example login_refused :
  let r := exec [Rejected (rejection (Str "Invalid credentials"))]
             (login None None (Str "a@b.com") (Str "bad"))
             (reached mounted_anonymous) in
  reached r = reached mounted_anonymous /\
  stands r = Done (Ok (failure (Str "Invalid credentials"))).
Proof. by vm_compute. Qed.

(** A numeric token is attached and stored in decimal. *)
Example numeric_token :
  let s := render (reached (run (handleOAuthSuccess (Num no_content) Null)
                              (reached mounted_anonymous))) in
  attached s = Some "Bearer 204" /\ persisted s = Some "204".
Proof. by vm_compute. Qed.

(** The provider mounted over the stored token ["abc"], the "who am I"
    query rejected: [checkAuth] completes with the session as it was and
    the revoke call in flight; when that call fails too, the session is
    signed out. *)
Example startup_restore_rejected :
  match pending mounted_restoring with
  | [me] =>
      let r := settle me (Rejected network_error) (reached mounted_restoring) in
      token (reached r) = Str "abc" /\ loading (reached r) = false /\
      match pending r with
      | [revoke] =>
          let r' := settle revoke (Rejected network_error) (reached r) in
          revoke.1 = POST "/api/auth/logout" Undefined /\
          token (reached r') = Null /\ user (reached r') = Null /\
          loading (reached r') = false /\
          attached (reached r') = None /\ persisted (reached r') = None /\
          pending r' = []
      | _ => False
      end
  | _ => False
  end.
Proof. by vm_compute. Qed.

(** C7: signed in with the stored token ["abc"], a [logout] run to its
    end and then [handleOAuthSuccess('abc', { id: 2 })], both before React
    commits: a world the provider reaches from a state where header and
    store agree with the token.  Once React has committed, the token is
    ["abc"] and the header carries it, but the store holds no token. *)
Theorem pairing_lost_after_logout :
  reachable None None restored [] /\ synced restored /\
  reachable None None logout_then_oauth [] /\
  committed logout_then_oauth /\
  token logout_then_oauth = Str "abc" /\
  headers logout_then_oauth !! "Authorization" = Some "Bearer abc" /\
  localStorage logout_then_oauth !! "token" = None /\
  ~ paired logout_then_oauth.
Proof.
  destruct restored_reachable as (H & Hs & _).
  split; [exact H |]. split; [exact Hs |]. split.
  - pose proof logged_out_reachable as H1.
    apply (reach_call _ _ _ _
             (HandleOAuthSuccess (Str "abc") (Obj [("id", Num two)]))) in H1.
    apply reach_commit in H1. exact H1.
  - repeat split; try by vm_compute.
    intros Hp. vm_compute in Hp. destruct Hp as [_ Hp]. discriminate Hp.
Qed.

(** A login answered with the token ["abc"] while the stored token
    ["abc"] is attached. *)
Lemma login_success_signs_in_witness :
  let s := reached mounted_restoring in
  let r := run (continuation (login None None (Str "a@b.com") (Str "pw")) s
                  (Resolved (login_response (Str "abc")))) s in
  kept (Str "abc") s /\
  signed_in (Obj [("id", Num two)]) (Str "abc") (render (reached r)) /\
  stands r = Done (Ok (success (Obj [("id", Num two)]))) /\
  started r = [].
Proof.
  assert (kept (Str "abc") (reached mounted_restoring)) as Hk
    by (intros _; split; reflexivity).
  split; [exact Hk |].
  apply (login_success_signs_in None None (Str "a@b.com") (Str "pw")
           (login_response (Str "abc"))
           (Obj [("user", Obj [("id", Num two)]); ("token", Str "abc")])
           (Obj [("id", Num two)]) (Str "abc")
           (reached mounted_restoring) (reached mounted_restoring)).
  - reflexivity.
  - reflexivity.
  - reflexivity.
  - reflexivity.
  - exact Hk.
Defined.

(** Two logins that resolve and return success without the token ending
    up on the header and in the store.  One is answered with an empty
    token: no header, nothing stored.  The other is answered with the
    token ["abc"] after a [logout] that React has not committed yet, the
    token ["abc"] having been the session's before: the header carries
    it, the store holds nothing. *)
Lemma login_not_signed_in :
  (let r := exec [Resolved (login_response (Str ""))]
              (login None None (Str "a@b.com") (Str "pw"))
              (reached mounted_anonymous) in
   reachable None None (reached mounted_anonymous) (pending mounted_anonymous) /\
   stands r = Done (Ok (success (Obj [("id", Num two)]))) /\
   token (reached r) = Str "" /\
   attached (reached r) = None /\
   persisted (reached r) = None /\
   ~ signed_in (Obj [("id", Num two)]) (Str "") (reached r)) /\
  (let r := run (continuation (login None None (Str "a@b.com") (Str "pw"))
                   logged_out (Resolved (login_response (Str "abc"))))
              logged_out in
   reachable None None logged_out [] /\
   stands r = Done (Ok (success (Obj [("id", Num two)]))) /\
   logout_then_login = render (reached r) /\
   reachable None None logout_then_login [] /\
   token logout_then_login = Str "abc" /\
   attached logout_then_login = Some "Bearer abc" /\
   persisted logout_then_login = None /\
   ~ signed_in (Obj [("id", Num two)]) (Str "abc") logout_then_login).
Proof.
  split.
  - split; [exact mounted_anonymous_reachable |].
    repeat split; try by vm_compute.
    intros (_ & _ & Ha & _). vm_compute in Ha. discriminate Ha.
  - split; [exact logged_out_reachable |].
    split; [reflexivity |]. split; [reflexivity |]. split.
    + pose proof logged_out_reachable as H.
      apply (reach_call _ _ _ _ (Login (Str "a@b.com") (Str "pw"))) in H.
      apply (reach_settle_only _ _ _ _
               (Resolved (login_response (Str "abc")))) in H.
      apply reach_commit in H. exact H.
    + repeat split; try by vm_compute.
      intros (_ & _ & _ & Hp). vm_compute in Hp. discriminate Hp.
Qed.

(** A login from the anonymous state refused with a reason: the reason
    is what the call returns. *)
Lemma login_failure_keeps_state_witness :
  let error := rejection (Str "Invalid credentials") in
  let s := reached mounted_anonymous in
  let r := run (continuation (login None None (Str "a@b.com") (Str "bad")) s
                  (Rejected error)) s in
  nullish error = false /\
  reached (run (login None None (Str "a@b.com") (Str "bad")) s) = s /\
  reached r = s /\ started r = [] /\
  stands r = Done (Ok (failure (Str "Invalid credentials"))).
Proof.
  split; [reflexivity |].
  destruct (login_failure_keeps_state None None (Str "a@b.com") (Str "bad")
              (rejection (Str "Invalid credentials"))
              (reached mounted_anonymous) (reached mounted_anonymous)
              eq_refl)
    as (H1 & H2 & H3 & message & H4 & _ & H5 & _).
  split; [exact H1 |]. split; [exact H2 |]. split; [exact H3 |].
  rewrite H4. rewrite (H5 (Str "Invalid credentials")); [reflexivity | |].
  - exists [("response", Obj [("data", Obj [("error", Str "Invalid credentials")])])],
      [("data", Obj [("error", Str "Invalid credentials")])],
      [("error", Str "Invalid credentials")].
    split; [reflexivity |].
    repeat split; exists [], []; (split; [reflexivity | constructor]).
  - reflexivity.
Defined.

(** Two failed logins that end otherwise: a request rejected with [null]
    makes the call throw, and an error payload whose reason is the number
    [1] makes it return that number, not a string. *)
Lemma login_failure_exceptions :
  let s := reached mounted_anonymous in
  let login := login None None (Str "a@b.com") (Str "bad") in
  stands (run (continuation login s (Rejected Null)) s)
  = Done (Throw TypeError) /\
  stands (run (continuation login s (Rejected (rejection (Num one)))) s)
  = Done (Ok (failure (Num one))).
Proof. split; reflexivity. Qed.

(** A logout while the stored token ["abc"] is attached, the revoke call
    failing. *)
Lemma logout_signs_out_witness :
  let r := exec [Rejected network_error] (logout None None)
             (reached mounted_restoring) in
  reachable None None (reached mounted_restoring) (pending mounted_restoring) /\
  signed_out (reached r) /\ stands r = Done (Ok Undefined) /\ started r = [].
Proof.
  split; [by eapply reach_mount |].
  apply (logout_signs_out None None (reached mounted_restoring)
           (pending mounted_restoring) (Rejected network_error)).
  by eapply reach_mount.
Defined.

(** Mounting over an empty store. *)
Lemma mount_without_token_witness :
  let r := exec [] (mount_effects None None) (first_render ∅ ∅) in
  (∅ : gmap string string) !! "token" = None /\
  token (reached r) = Null /\ user (reached r) = Null /\
  loading (reached r) = false /\ attached (reached r) = None /\
  pending r = [] /\ stands r = Done (Ok Undefined).
Proof.
  split; [reflexivity |].
  apply (mount_without_token None None ∅ ∅). reflexivity.
Defined.



(** Logins from the anonymous state with a token in the response, and a
    restore by the [checkAuth] of the current render. *)
Lemma user_needs_token_kept_witness :
  user_needs_token (reached mounted_anonymous) /\
  user_needs_token
    (reached (exec [Resolved (login_response (Str "xyz"))]
                (login None None (Str "a@b.com") (Str "pw"))
                (reached mounted_anonymous))) /\
  user_needs_token
    (reached (exec [Resolved me_response] (checkAuth None None Null)
                (reached mounted_anonymous))) /\
  user_needs_token
    (reached (exec [] (handleOAuthSuccess (Str "xyz") (Obj [("id", Num two)]))
                (reached mounted_anonymous))).
Proof.
  assert (user_needs_token (reached mounted_anonymous)) as H0
    by (intros H; vm_compute in H; discriminate H).
  split; [exact H0 |].
  destruct (user_needs_token_kept None None (reached mounted_anonymous) H0)
    as (Hlogin & _ & _ & Hcheck & Hoauth).
  split; [| split].
  - apply Hlogin. reflexivity.
  - apply Hcheck. discriminate.
  - apply Hoauth. reflexivity.
Defined.

(** Four ways to a user without a token, each from a state with no user:
    a login answered with a profile and an empty token; an external login
    handed a profile and no token; after a logout, the [checkAuth] of an
    earlier render, whose token was ["abc"], answered with a profile; and
    a logout run to its end while the start-up restore is in flight, the
    restore then answered with a profile. *)
Lemma user_without_token :
  user_needs_token (reached mounted_anonymous) /\
  ~ user_needs_token
      (reached (exec [Resolved (login_response (Str ""))]
                  (login None None (Str "a@b.com") (Str "pw"))
                  (reached mounted_anonymous))) /\
  ~ user_needs_token
      (reached (exec [] (handleOAuthSuccess Null (Obj [("id", Num two)]))
                  (reached mounted_anonymous))) /\
  (let s := render logged_out in
   user_needs_token s /\ token s = Null /\
   ~ user_needs_token
       (reached (exec [Resolved me_response] (checkAuth None None (Str "abc"))
                   s))) /\
  match pending mounted_restoring with
  | [me] =>
      let s := reached (exec [Resolved Undefined] (logout None None)
                          (reached mounted_restoring)) in
      user_needs_token (reached mounted_restoring) /\
      user_needs_token s /\
      ~ user_needs_token (reached (settle me (Resolved me_response) s))
  | _ => False
  end.
Proof.
  split; [intros H; vm_compute in H; discriminate H |].
  split; [| split; [| split]].
  - intros H. unfold user_needs_token in H. vm_compute in H.
    specialize (H eq_refl). discriminate H.
  - intros H. unfold user_needs_token in H. vm_compute in H.
    specialize (H eq_refl). discriminate H.
  - split; [intros H; vm_compute in H; discriminate H |].
    split; [by vm_compute |].
    intros H. unfold user_needs_token in H. vm_compute in H.
    specialize (H eq_refl). discriminate H.
  - vm_compute. split; [intros H; discriminate H |].
    split; [intros H; discriminate H |].
    intros H. specialize (H eq_refl). discriminate H.
Qed.


(** * Further properties *)

(** ** The API base URL *)

(** X1: whatever [VITE_API_URL] and [window] are, the base ends in
    ["/api"] and in no slash, so that a path appended to it starts under
    ["/api/"]. *)
Theorem API_URL_ends_in_api (_VITE_API : option string)
    (window : option Window) :
  endsWith (API_URL _VITE_API window) "/api" = true /\
  endsWith (API_URL _VITE_API window) "/" = false.
Proof.
  pose proof (API_URL_suffix _VITE_API window) as Hapi.
  split; [exact Hapi |].
  rewrite <- (strip_trailing_slashes_api _ Hapi).
  apply strip_trailing_slashes_end.
Qed.

(** X2: a base is a fixed point: given as [VITE_API_URL], in any
    environment, the base computed from it is the same base. *)
Theorem API_URL_fixed_point (_VITE_API : option string)
    (window window' : option Window) :
  API_URL (Some (API_URL _VITE_API window)) window'
  = API_URL _VITE_API window.
Proof.
  pose proof (API_URL_suffix _VITE_API window) as Hapi.
  set (base := API_URL _VITE_API window) in *.
  unfold API_URL at 1.
  assert (truthy (Str base) = true) as ->.
  { destruct base; [done | reflexivity]. }
  by rewrite (strip_trailing_slashes_api _ Hapi), Hapi.
Qed.

(** X3: slashes added at the end of a non-empty [VITE_API_URL] do not
    change the base. *)
Theorem API_URL_trailing_slashes (c : ascii) (v : string) (n : nat)
    (window : option Window) :
  API_URL (Some (String c v +:+ slashes n)) window
  = API_URL (Some (String c v)) window.
Proof.
  unfold API_URL.
  change (truthy (Str (String c v +:+ slashes n))) with true.
  change (truthy (Str (String c v))) with true.
  cbv iota. by rewrite strip_trailing_slashes_app_slashes.
Qed.

(** ** The context *)

(** X4: [useAuth] throws exactly where there is no provider: under a
    provider it returns the context with the provider's [user], [loading]
    and [token], whatever they are, all empty included. *)
Theorem useAuth_provider (provider : option state) :
  match provider with
  | None =>
      useAuth provider
      = Throw (Error "useAuth must be used within an AuthProvider")
  | Some s =>
      exists context,
        useAuth provider = Ok context /\
        get_prop context "user" = Ok (user s) /\
        get_prop context "loading" = Ok (Bool (loading s)) /\
        get_prop context "token" = Ok (token s)
  end.
Proof.
  destruct provider as [s |]; [| reflexivity].
  exists (context_value s). by repeat split.
Qed.

(** ** The token effect *)

(** X5: the token effect is idempotent: run twice in a row, as React does
    for a component mounted in strict mode, it leaves what one run
    leaves, whatever the header and the store held. *)
Theorem token_effect_idempotent (s : state) :
  token_effect (token_effect s) = token_effect s.
Proof.
  unfold token_effect at 1. rewrite token_effect_token.
  unfold token_effect, setItem, removeItem, with_headers, with_localStorage.
  destruct (truthy (token s)); simpl; f_equal;
    by (apply insert_insert_eq || apply delete_delete_eq).
Qed.

(** ** Mounting *)

Section Mounting.

Variable _VITE_API : option string.
Variable window : option Window.

Local Abbreviation checkAuth := (checkAuth _VITE_API window).
Local Abbreviation login := (login _VITE_API window).
Local Abbreviation reachable := (reachable _VITE_API window).
Local Abbreviation mounted := (mounted _VITE_API window).
Local Abbreviation url path := (API_URL _VITE_API window +:+ path).

(** What [checkAuth] leaves in flight is the rest of its own body. *)
Lemma pending_checkAuth (captured : value) (s : state) :
  truthy captured = true ->
  pending (run (checkAuth captured) s)
  = [(GET (url "/auth/me"), continuation (checkAuth captured) s)].
Proof.
  intros Ht. unfold continuation, pending. open_checkAuth. rewrite Ht.
  reflexivity.
Qed.

(** The rest of [checkAuth] once a payload has come. *)
Lemma run_checkAuth_resolved (captured response data u : value)
    (s s' : state) :
  truthy captured = true ->
  get_prop response "data" = Ok data ->
  get_prop data "user" = Ok u ->
  run (continuation (checkAuth captured) s (Resolved response)) s'
  = Ran (with_loading false (with_user u s')) [] (Done (Ok Undefined)).
Proof.
  intros Ht Hd Hu. unfold continuation. open_checkAuth. rewrite Ht.
  simpl. by rewrite Hd, Hu.
Qed.

(** Mounting over a stored non-empty token. *)
Lemma mounted_over_token (hdrs store : gmap string string) (t : string) :
  store !! "token" = Some t ->
  t <> "" ->
  let s0 := first_render hdrs store in
  reached (mounted hdrs store) = render s0 /\
  pending (mounted hdrs store)
  = [(GET (url "/auth/me"), continuation (checkAuth (Str t)) (render s0))] /\
  token (render s0) = Str t /\ user (render s0) = Null /\
  loading (render s0) = true /\
  attached (render s0) = Some ("Bearer " +:+ t) /\
  persisted (render s0) = Some t.
Proof.
  intros Hstore Ht s0. apply truthy_Str in Ht.
  assert (token s0 = Str t) as Htok
    by (unfold s0, first_render, getItem; by rewrite Hstore).
  destruct (mounted_run _VITE_API window hdrs store) as [-> ->].
  destruct (run_mount_effects _VITE_API window s0) as [Hr Hp].
  fold s0. rewrite Hr, Hp, Htok, pending_checkAuth by done.
  destruct (run_checkAuth_token _VITE_API window (Str t) (render s0) Ht)
    as (k & -> & _).
  split; [done |]. split; [done |].
  destruct (first_commit_synced hdrs store) as [_ Hpair]. fold s0 in Hpair.
  unfold paired in Hpair. rewrite render_token, Htok, Ht in Hpair.
  rewrite render_token, render_user, render_loading.
  destruct Hpair as [Ha Hs]. by repeat split.
Qed.

(** X6: mounted over a stored non-empty token, the provider takes it as
    its token, attaches it, leaves it stored, stays [loading] with no
    user, and has sent exactly the "who am I" query. *)
Theorem mount_with_token (hdrs store : gmap string string) (t : string) :
  store !! "token" = Some t ->
  t <> "" ->
  let r := mounted hdrs store in
  token (reached r) = Str t /\ user (reached r) = Null /\
  loading (reached r) = true /\
  attached (reached r) = Some ("Bearer " +:+ t) /\
  persisted (reached r) = Some t /\
  (pending r).*1 = [GET (url "/auth/me")].
Proof.
  intros Hstore Ht.
  destruct (mounted_over_token hdrs store t Hstore Ht)
    as (Hr & Hp & H1 & H2 & H3 & H4 & H5).
  cbv zeta. rewrite Hr, Hp. by repeat split.
Qed.

(** X7: mounted over a stored empty string, the provider keeps [""] as its
    token but treats it as no token: the key is removed, no header is
    attached, nothing is requested and [loading] is false. *)
Theorem mount_with_empty_token (hdrs store : gmap string string) :
  store !! "token" = Some "" ->
  let r := mounted hdrs store in
  token (reached r) = Str "" /\ user (reached r) = Null /\
  loading (reached r) = false /\
  attached (reached r) = None /\ persisted (reached r) = None /\
  pending r = [].
Proof.
  intros Hstore.
  open_mount. unfold turn, first_render, getItem.
  rewrite Hstore. simpl.
  unfold render, token_effect, attached, persisted, pending. simpl.
  repeat split; apply lookup_delete_eq.
Qed.

(** X8: a reload restores what a sign-in stored.  A login resolves with
    a payload whose token is a non-empty string, header and store being as
    the token effect left them if it last ran for that very token, and
    React commits; mounting afresh over the store this leaves, whatever
    the header holds by then, gives that token, attached, with the "who
    am I" query sent. *)
Theorem reload_restores_token (email password response data u : value)
    (t : string) (s s' : state) (hdrs : gmap string string) :
  get_prop response "data" = Ok data ->
  get_prop data "user" = Ok u ->
  get_prop data "token" = Ok (Str t) ->
  t <> "" ->
  kept (Str t) s' ->
  let s1 :=
    render (reached (run (continuation (login email password) s
                            (Resolved response)) s')) in
  let r := mounted hdrs (localStorage s1) in
  token (reached r) = Str t /\ user (reached r) = Null /\
  loading (reached r) = true /\
  attached (reached r) = Some ("Bearer " +:+ t) /\
  persisted (reached r) = Some t /\
  (pending r).*1 = [GET (url "/auth/me")].
Proof.
  intros Hd Hu Htok Ht Hk s1.
  assert (persisted s1 = Some t) as Hp.
  { unfold s1.
    rewrite (run_login_resolved _ _ _ _ _ _ _ _ s s' Hd Hu Htok). simpl.
    destruct (render_kept (with_token (Str t) (with_user u s'))) as [_ Hp];
      [exact Hk |].
    unfold paired in Hp. rewrite render_token in Hp.
    cbn [token with_token] in Hp. rewrite (truthy_Str t Ht) in Hp.
    by destruct Hp. }
  destruct (mounted_over_token hdrs (localStorage s1) t Hp Ht)
    as (Hr & Hq & H1 & H2 & H3 & H4 & H5).
  cbv zeta. rewrite Hr, Hq. by repeat split.
Qed.

End Mounting.

(** ** The operations, case by case *)

Section Operations.

Variable _VITE_API : option string.
Variable window : option Window.

Local Abbreviation logout := (logout _VITE_API window).
Local Abbreviation checkAuth := (checkAuth _VITE_API window).
Local Abbreviation login := (login _VITE_API window).
Local Abbreviation register := (register _VITE_API window).
Local Abbreviation url path := (API_URL _VITE_API window +:+ path).

(** X9: when the "who am I" query does not fail, [checkAuth], called in
    a state React has committed, sets the user to what the payload has
    under [user], be it nothing, and [loading] to false; token, header
    and store stay as they were and no call is left in flight. *)
Theorem checkAuth_accepted (captured : value) (o : outcome) (s : state) :
  committed s ->
  truthy captured = true ->
  restore_fails o = false ->
  let r := exec [o] (checkAuth captured) s in
  exists response data u,
    o = Resolved response /\
    get_prop response "data" = Ok data /\ get_prop data "user" = Ok u /\
    reached r = with_loading false (with_user u s) /\
    stands r = Done (Ok Undefined) /\ started r = [].
Proof.
  intros Hs Ht Hf.
  destruct o as [response | error]; [| done]. simpl in Hf.
  destruct (get_prop response "data") as [data | e] eqn:Hd; [| done].
  destruct (get_prop data "user") as [u | e] eqn:Hu; [| by destruct data].
  exists response, data, u.
  rewrite (exec_checkAuth_succeeds _ _ _ _ _ _ _ Ht Hd Hu). simpl.
  rewrite (render_same s Hs), render_same by exact Hs.
  by repeat split.
Qed.

(** X10: whether [checkAuth] sends the "who am I" query depends on the
    token of the render it comes from, not on the token of the session
    when it is called: with that token empty it sends nothing and changes
    nothing but [loading], which it sets to false; with that token
    non-empty it changes nothing and awaits the query. *)
Theorem checkAuth_without_token (captured : value) (s : state) :
  let r := run (checkAuth captured) s in
  if truthy captured then
    reached r = s /\ started r = [] /\
    exists k, stands r = Await (GET (url "/auth/me")) k
  else
    reached r = with_loading false s /\
    stands r = Done (Ok Undefined) /\ pending r = [].
Proof.
  destruct (truthy captured) eqn:Ht.
  - destruct (run_checkAuth_token _VITE_API window captured s Ht)
      as (k & Hrun & _).
    cbv zeta. rewrite Hrun. simpl. eauto.
  - cbv zeta. by rewrite run_checkAuth_no_token.
Qed.

(** What a commit leaves on the header and in the store for the token
    just set. *)
Lemma render_set_token (t : value) (s : state) :
  kept t s ->
  attached (render (with_token t s)) = credential t /\
  persisted (render (with_token t s)) = stored t.
Proof.
  intros Hk. destruct (render_kept (with_token t s) Hk) as [_ Hp].
  apply paired_credential in Hp. by rewrite render_token in Hp.
Qed.

(** X11: [handleOAuthSuccess] sends nothing and sets user and token to
    what it is given, leaving header and store to the next commit.  Then,
    header and store being as the token effect left them if it last ran
    for that very token, a non-empty token is on the header and in the
    store, and an empty one leaves neither. *)
Theorem handleOAuthSuccess_sets (t u : value) (s : state) :
  kept t s ->
  let r := run (handleOAuthSuccess t u) s in
  reached r = with_user u (with_token t s) /\
  stands r = Done (Ok Undefined) /\ pending r = [] /\
  user (render (reached r)) = u /\ token (render (reached r)) = t /\
  loading (render (reached r)) = loading s /\
  if truthy t then
    attached (render (reached r)) = Some ("Bearer " +:+ to_string t) /\
    persisted (render (reached r)) = Some (to_string t)
  else
    attached (render (reached r)) = None /\
    persisted (render (reached r)) = None.
Proof.
  intros Hk. simpl. rewrite render_user, render_token, render_loading.
  repeat (split; [done |]).
  change (with_user u (with_token t s)) with (with_token t (with_user u s)).
  destruct (render_set_token t (with_user u s) Hk) as [Ha Hp].
  unfold credential, stored in *. by destruct (truthy t).
Qed.

(** X12: when the registration request resolves with a payload whose
    token is non-empty, and header and store are as the token effect left
    them if it last ran for that very token, then, React committing next,
    the session has the payload's user and token, the token is on the
    header and in the store, and the call returns the success result with
    the profile. *)
Theorem register_success_signs_in
    (username email password response data u t : value) (s s' : state) :
  get_prop response "data" = Ok data ->
  get_prop data "user" = Ok u ->
  get_prop data "token" = Ok t ->
  truthy t = true ->
  kept t s' ->
  let r := run (continuation (register username email password) s
                  (Resolved response)) s' in
  signed_in u t (render (reached r)) /\ stands r = Done (Ok (success u)) /\
  started r = [].
Proof.
  intros Hd Hu Ht Htruthy Hk.
  rewrite (run_register_resolved _ _ _ _ _ _ _ _ _ s s' Hd Hu Ht). simpl.
  split; [| done].
  destruct (render_set_token t (with_user u s') Hk) as [Ha Hp].
  unfold credential, stored in *. rewrite Htruthy in *.
  unfold signed_in.
  change (with_token t (with_user u s')) with (with_user u (with_token t s')).
  rewrite render_user, render_token. by repeat split.
Qed.

(** X13: when the registration request is rejected with an error value,
    the state is what it was, before the request and after the rejection,
    and the call returns the failure result with a non-empty reason: the
    reason the error payload carries when that is non-empty,
    ["Registration failed"] when the error carries none or an empty one. *)
Theorem register_failure_keeps_state (username email password error : value)
    (s s' : state) :
  nullish error = false ->
  let r := run (continuation (register username email password) s
                  (Rejected error)) s' in
  reached (run (register username email password) s) = s /\
  reached r = s' /\ started r = [] /\
  exists message,
    stands r = Done (Ok (failure message)) /\
    truthy message = true /\
    (forall m, carries error m -> truthy m = true -> message = m) /\
    ((forall m, carries error m -> truthy m = false) ->
     message = Str "Registration failed").
Proof.
  intros Herr. rewrite run_register_rejected by done. simpl.
  repeat split.
  exists (or_else (reason error) (Str "Registration failed")).
  split; [done |]. by apply or_else_reason.
Qed.

(** X14: a login response with nothing to destructure, [data] being
    absent, is a failure although the request resolved: called in a state
    React has committed, the state is what it was and the call returns
    the failure result with ["Login failed"]. *)
Theorem login_unreadable_response (email password response : value)
    (s : state) :
  committed s ->
  get_opt response "data" = Undefined \/ get_opt response "data" = Null ->
  let r := exec [Resolved response] (login email password) s in
  reached r = s /\ started r = [] /\
  stands r = Done (Ok (failure (Str "Login failed"))).
Proof.
  intros Hs Hdata.
  rewrite exec_login_unreadable.
  - simpl. by rewrite !(render_same s Hs).
  - destruct response as [| | b | n | str | fields]; simpl in *;
      try (by left); right.
    + by exists Undefined.
    + by exists Undefined.
    + by exists Undefined.
    + exists (field "data" fields). split; [done |].
      by destruct Hdata as [-> | ->].
Qed.

(** X15: [login] is all or nothing.  Called in a state React has
    committed, whatever the request comes to, with an error value where
    it is rejected, the call returns normally with nothing left in
    flight, and either it returns the success result and the session has
    the payload's user and token, or it returns a failure result with a
    non-empty reason and the state is what it was. *)
Theorem login_all_or_nothing (email password : value) (o : outcome)
    (s : state) :
  committed s ->
  match o with Rejected error => nullish error = false | Resolved _ => True end ->
  let r := exec [o] (login email password) s in
  started r = [] /\
  ((exists response data u t,
      o = Resolved response /\ get_prop response "data" = Ok data /\
      get_prop data "user" = Ok u /\ get_prop data "token" = Ok t /\
      stands r = Done (Ok (success u)) /\
      user (reached r) = u /\ token (reached r) = t) \/
   (exists message,
      stands r = Done (Ok (failure message)) /\
      truthy message = true /\ reached r = s)).
Proof.
  intros Hs Ho.
  destruct o as [response | error].
  - destruct (get_prop response "data") as [data | e] eqn:Hd.
    + destruct (get_prop data "user") as [u | e] eqn:Hu.
      * destruct (get_prop data "token") as [t | e] eqn:Ht;
          [| destruct data; simpl in *; congruence].
        rewrite (exec_login_resolved _ _ _ _ _ _ _ _ _ Hd Hu Ht). simpl.
        split; [done |]. left. exists response, data, u, t.
        rewrite render_user, render_token. by repeat split.
      * rewrite exec_login_unreadable.
        -- simpl. rewrite !(render_same s Hs). split; [done |].
           right. by exists (Str "Login failed").
        -- right. exists data. split; [done |]. by destruct data.
    + rewrite exec_login_unreadable.
      * simpl. rewrite !(render_same s Hs). split; [done |].
        right. by exists (Str "Login failed").
      * left. by rewrite (get_prop_throw _ _ _ Hd) in Hd.
  - rewrite exec_login_rejected by done.
    simpl. rewrite !(render_same s Hs). split; [done |].
    right. eexists. split; [reflexivity |]. split; [| done].
    unfold or_else. by destruct (truthy (reason error)) eqn:Hr.
Qed.

(** X20: a revoke call left in flight by a failed restore undoes a login
    made before it settles: the login signs in, and when the revoke call
    then settles, either way, the session is signed out.  Header and
    store are as the token effect left them if it last ran for the token
    of the session. *)
Theorem late_revoke_signs_out
    (captured : value) (o : outcome)
    (email password response data u t : value) (s : state) :
  kept (token s) s ->
  truthy captured = true ->
  restore_fails o = true ->
  get_prop response "data" = Ok data ->
  get_prop data "user" = Ok u ->
  get_prop data "token" = Ok t ->
  truthy t = true ->
  let r1 := exec [o] (checkAuth captured) s in
  let r2 := exec [Resolved response] (login email password) (reached r1) in
  signed_in u t (reached r2) /\
  forall revoke o',
    revoke ∈ started r1 ->
    signed_out (reached (settle revoke o' (reached r2))).
Proof.
  intros Hk Htok Hf Hd Hu Ht Htruthy.
  pose proof (render_kept s Hk) as Hs0.
  cbv zeta.
  rewrite (exec_checkAuth_fails _ _ _ _ _ Htok Hf). cbn [reached started].
  assert (synced (with_loading false (render s))) as Hs1
    by (by apply synced_with_loading).
  rewrite (synced_render _ Hs1).
  rewrite (exec_login_resolved _ _ _ _ _ _ _ _ _ Hd Hu Ht). cbn [reached].
  rewrite (synced_render _ Hs1).
  set (s2 := render (with_token t (with_user u (with_loading false (render s))))).
  assert (synced s2) as Hs2
    by (unfold s2; by apply synced_set_token, synced_with_user).
  split.
  - destruct Hs2 as [_ Hp]. unfold paired in Hp. unfold signed_in.
    unfold s2 in *. rewrite render_token in Hp. simpl in Hp.
    rewrite Htruthy in Hp. rewrite render_user, render_token.
    by destruct Hp.
  - intros revoke o' ->%list_elem_of_singleton.
    unfold settle, turn. simpl. rewrite run_logout_settled. simpl.
    by apply cleanup_anchored, synced_anchored.
Qed.

End Operations.

(** ** What the provider leaves alone *)

Section Bounds.

Variable _VITE_API : option string.
Variable window : option Window.

Local Abbreviation auth_request := (auth_request _VITE_API window).
Local Abbreviation evolves := (evolves _VITE_API window).
Local Abbreviation reachable := (reachable _VITE_API window).
Local Abbreviation mounted := (mounted _VITE_API window).
Local Abbreviation url path := (API_URL _VITE_API window +:+ path).

(** X16: the provider writes nothing but its own entries: however it
    evolves from a mount, every header but [Authorization] and every
    stored key but [token] is what it was before the mount. *)
Theorem others_untouched (hdrs store : gmap string string) (s : state)
    (ts : list task) :
  evolves (reached (mounted hdrs store)) (pending (mounted hdrs store)) s ts ->
  (forall k, k <> "Authorization" -> headers s !! k = hdrs !! k) /\
  (forall k, k <> "token" -> localStorage s !! k = store !! k).
Proof.
  intros H. destruct (evolves_mounted _ _ _ _ _ _ H) as [[Hk _] _]. exact Hk.
Qed.

(** X17: the provider sends nothing but its four requests: every call in
    flight in a reachable world is the "who am I" query, the revoke call,
    a login with its two credentials or a registration with its three
    fields, each at its path under the API base. *)
Theorem only_auth_requests (s : state) (ts : list task) :
  reachable s ts -> Forall (fun t => auth_request t.1) ts.
Proof.
  intros H. destruct (reachable_evolves _ _ _ _ H) as (hdrs & store & He).
  destruct (evolves_mounted _ _ _ _ _ _ He) as (_ & Hfair & _).
  apply Forall_forall. intros t Ht.
  by destruct (Hfair t Ht) as [[Hreq _] _].
Qed.

(** X18: [loading] is true only while restoring: in every reachable
    world where [loading] is true a "who am I" query is in flight. *)
Theorem loading_means_restoring (s : state) (ts : list task) :
  reachable s ts ->
  loading s = true ->
  exists t, t ∈ ts /\ t.1 = GET (url "/auth/me").
Proof.
  intros H Hl. destruct (reachable_evolves _ _ _ _ H) as (hdrs & store & He).
  destruct (evolves_mounted _ _ _ _ _ _ He) as (_ & _ & Hme & _).
  by apply Hme.
Qed.

(** X19: once false, [loading] stays false: nothing the provider does
    later, whatever is called and however calls settle, sets it back. *)
Theorem loading_stays_false (s0 : state) (ts0 : list task) (s : state)
    (ts : list task) :
  reachable s0 ts0 ->
  evolves s0 ts0 s ts ->
  loading s0 = false ->
  loading s = false.
Proof.
  intros H He Hl.
  destruct (reachable_evolves _ _ _ _ H) as (hdrs & store & H0).
  destruct (evolves_mounted _ _ _ _ _ _ H0) as (_ & Hfair & _).
  destruct (evolves_calm _ _ _ _ _ _ Hfair He) as [[_ Hs] _]. by apply Hs.
Qed.

(** X22: what does hold of header and store in every reachable world
    that React has committed: the header carries the token when it is
    non-empty and is absent when it is empty; the store holds the token
    or, a [logout] having removed it, nothing. *)
Theorem header_follows_commit (s : state) (ts : list task) :
  reachable s ts ->
  committed s ->
  headers s !! "Authorization"
  = (if truthy (token s) then Some ("Bearer " +:+ to_string (token s))
     else None) /\
  (localStorage s !! "token"
   = (if truthy (token s) then Some (to_string (token s)) else None) \/
   localStorage s !! "token" = None).
Proof.
  intros H Hc. destruct (reachable_anchored _ _ _ _ H) as (d & Hd & Ha & Hp).
  unfold committed in Hc. rewrite Hc in Hd. injection Hd as <-.
  split; [exact Ha | exact Hp].
Qed.

End Bounds.

(** ** Start-up *)

Section Startup.

Variable _VITE_API : option string.
Variable window : option Window.

Local Abbreviation mounted := (mounted _VITE_API window).

(** X21: start-up with an accepted token: mounted over a stored non-empty
    token, once the "who am I" query resolves with a payload, the
    provider has the payload's user, the stored token as its token, on
    the header and in the store, [loading] false and nothing in flight. *)
Theorem startup_restore_accepted (hdrs store : gmap string string)
    (t : string) (me : task) (response data u : value) :
  store !! "token" = Some t ->
  t <> "" ->
  me ∈ pending (mounted hdrs store) ->
  get_prop response "data" = Ok data ->
  get_prop data "user" = Ok u ->
  let r := settle me (Resolved response) (reached (mounted hdrs store)) in
  signed_in u (Str t) (reached r) /\ loading (reached r) = false /\
  stands r = Done (Ok Undefined) /\ pending r = [].
Proof.
  intros Hstore Ht Hme Hd Hu.
  destruct (mounted_over_token _VITE_API window hdrs store t Hstore Ht)
    as (Hr & Hp & H1 & H2 & H3 & H4 & H5).
  rewrite Hp in Hme. apply list_elem_of_singleton in Hme. subst me.
  cbv zeta. rewrite Hr. unfold settle, turn. cbn [snd].
  rewrite (run_checkAuth_resolved _ _ _ _ _ _ _ _ (truthy_Str t Ht) Hd Hu).
  set (s1 := render (first_render hdrs store)) in *.
  assert (committed s1) as Hc
    by (unfold s1, committed; by rewrite render_deps, render_token).
  unfold pending. simpl. rewrite render_same by exact Hc.
  unfold signed_in, attached, persisted in *. simpl. by repeat split.
Qed.

End Startup.

(** ** Further concrete runs *)

(** Mounting over the stored token ["abc"]. *)
Lemma mount_with_token_witness :
  let r := mounted None None ∅ {["token" := "abc"]} in
  token (reached r) = Str "abc" /\ user (reached r) = Null /\
  loading (reached r) = true /\
  attached (reached r) = Some "Bearer abc" /\
  persisted (reached r) = Some "abc" /\
  (pending r).*1 = [GET "/api/auth/me"].
Proof.
  apply (mount_with_token None None ∅ {["token" := "abc"]} "abc").
  - reflexivity.
  - discriminate.
Defined.

(** Mounting over a stored empty string. *)
Lemma mount_with_empty_token_witness :
  let r := mounted None None ∅ {["token" := ""]} in
  token (reached r) = Str "" /\ user (reached r) = Null /\
  loading (reached r) = false /\
  attached (reached r) = None /\ persisted (reached r) = None /\
  pending r = [].
Proof.
  apply (mount_with_empty_token None None ∅ {["token" := ""]}). reflexivity.
Defined.

(** A login from the anonymous state answered with the token ["xyz"],
    then a reload, which starts with no header. *)
Lemma reload_restores_token_witness :
  let s := reached mounted_anonymous in
  let s1 :=
    render (reached (run (continuation
                            (login None None (Str "a@b.com") (Str "pw")) s
                            (Resolved (login_response (Str "xyz")))) s)) in
  let r := mounted None None ∅ (localStorage s1) in
  kept (Str "xyz") s /\
  token (reached r) = Str "xyz" /\ user (reached r) = Null /\
  loading (reached r) = true /\
  attached (reached r) = Some "Bearer xyz" /\
  persisted (reached r) = Some "xyz" /\
  (pending r).*1 = [GET "/api/auth/me"].
Proof.
  assert (kept (Str "xyz") (reached mounted_anonymous)) as Hk
    by (intros H; discriminate H).
  split; [exact Hk |].
  apply (reload_restores_token None None (Str "a@b.com") (Str "pw")
           (login_response (Str "xyz"))
           (Obj [("user", Obj [("id", Num two)]); ("token", Str "xyz")])
           (Obj [("id", Num two)]) "xyz"
           (reached mounted_anonymous) (reached mounted_anonymous) ∅).
  - reflexivity.
  - reflexivity.
  - reflexivity.
  - discriminate.
  - exact Hk.
Defined.

(** The "who am I" query answered with a profile for the stored token. *)
Lemma checkAuth_accepted_witness :
  let r := exec [Resolved me_response] (checkAuth None None (Str "abc"))
             (reached mounted_restoring) in
  committed (reached mounted_restoring) /\
  exists response data u,
    Resolved me_response = Resolved response /\
    get_prop response "data" = Ok data /\ get_prop data "user" = Ok u /\
    reached r
    = with_loading false (with_user u (reached mounted_restoring)) /\
    stands r = Done (Ok Undefined) /\ started r = [].
Proof.
  split; [reflexivity |].
  apply (checkAuth_accepted None None (Str "abc") (Resolved me_response)
           (reached mounted_restoring)).
  - reflexivity.
  - reflexivity.
  - reflexivity.
Defined.

(** An external login in the anonymous state. *)
Lemma handleOAuthSuccess_sets_witness :
  let s := reached mounted_anonymous in
  let r := run (handleOAuthSuccess (Str "xyz") (Obj [("id", Num two)])) s in
  kept (Str "xyz") s /\
  reached r = with_user (Obj [("id", Num two)]) (with_token (Str "xyz") s) /\
  stands r = Done (Ok Undefined) /\ pending r = [] /\
  user (render (reached r)) = Obj [("id", Num two)] /\
  token (render (reached r)) = Str "xyz" /\
  loading (render (reached r)) = loading s /\
  attached (render (reached r)) = Some "Bearer xyz" /\
  persisted (render (reached r)) = Some "xyz".
Proof.
  assert (kept (Str "xyz") (reached mounted_anonymous)) as Hk
    by (intros H; discriminate H).
  split; [exact Hk |].
  apply (handleOAuthSuccess_sets (Str "xyz") (Obj [("id", Num two)])
           (reached mounted_anonymous)).
  exact Hk.
Defined.

(** A registration answered with the token ["abc"] while the stored
    token ["abc"] is attached. *)
Lemma register_success_signs_in_witness :
  let s := reached mounted_restoring in
  let r := run (continuation
                  (register None None (Str "ann") (Str "a@b.com") (Str "pw")) s
                  (Resolved (login_response (Str "abc")))) s in
  kept (Str "abc") s /\
  signed_in (Obj [("id", Num two)]) (Str "abc") (render (reached r)) /\
  stands r = Done (Ok (success (Obj [("id", Num two)]))) /\
  started r = [].
Proof.
  assert (kept (Str "abc") (reached mounted_restoring)) as Hk
    by (intros _; split; reflexivity).
  split; [exact Hk |].
  apply (register_success_signs_in None None (Str "ann") (Str "a@b.com")
           (Str "pw") (login_response (Str "abc"))
           (Obj [("user", Obj [("id", Num two)]); ("token", Str "abc")])
           (Obj [("id", Num two)]) (Str "abc")
           (reached mounted_restoring) (reached mounted_restoring)).
  - reflexivity.
  - reflexivity.
  - reflexivity.
  - reflexivity.
  - exact Hk.
Defined.

(** A registration refused with a reason: the reason is what the call
    returns. *)
Lemma register_failure_keeps_state_witness :
  let error := rejection (Str "Email already registered") in
  let s := reached mounted_anonymous in
  let register := register None None (Str "ann") (Str "a@b.com") (Str "pw") in
  let r := run (continuation register s (Rejected error)) s in
  nullish error = false /\
  reached (run register s) = s /\
  reached r = s /\ started r = [] /\
  stands r = Done (Ok (failure (Str "Email already registered"))).
Proof.
  split; [reflexivity |].
  destruct (register_failure_keeps_state None None (Str "ann") (Str "a@b.com")
              (Str "pw") (rejection (Str "Email already registered"))
              (reached mounted_anonymous) (reached mounted_anonymous)
              eq_refl)
    as (H1 & H2 & H3 & message & H4 & _ & H5 & _).
  split; [exact H1 |]. split; [exact H2 |]. split; [exact H3 |].
  rewrite H4. rewrite (H5 (Str "Email already registered")); [reflexivity | |].
  - exists [("response",
             Obj [("data", Obj [("error", Str "Email already registered")])])],
      [("data", Obj [("error", Str "Email already registered")])],
      [("error", Str "Email already registered")].
    split; [reflexivity |].
    repeat split; exists [], []; (split; [reflexivity | constructor]).
  - reflexivity.
Defined.

(** A login answered [204 No Content]: a response with no [data]. *)
Lemma login_unreadable_response_witness :
  let r := exec [Resolved (Obj [("status", Num no_content)])]
             (login None None (Str "a@b.com") (Str "pw"))
             (reached mounted_anonymous) in
  committed (reached mounted_anonymous) /\
  reached r = reached mounted_anonymous /\ started r = [] /\
  stands r = Done (Ok (failure (Str "Login failed"))).
Proof.
  split; [reflexivity |].
  apply (login_unreadable_response None None (Str "a@b.com") (Str "pw")
           (Obj [("status", Num no_content)])
           (reached mounted_anonymous)).
  - reflexivity.
  - left. reflexivity.
Defined.

(** A login refused with a reason: the failure side. *)
Lemma login_all_or_nothing_witness :
  let o := Rejected (rejection (Str "Invalid credentials")) in
  let s := reached mounted_anonymous in
  let r := exec [o] (login None None (Str "a@b.com") (Str "bad")) s in
  committed s /\
  started r = [] /\
  ((exists response data u t,
      o = Resolved response /\ get_prop response "data" = Ok data /\
      get_prop data "user" = Ok u /\ get_prop data "token" = Ok t /\
      stands r = Done (Ok (success u)) /\
      user (reached r) = u /\ token (reached r) = t) \/
   (exists message,
      stands r = Done (Ok (failure message)) /\
      truthy message = true /\ reached r = s)).
Proof.
  split; [reflexivity |].
  apply (login_all_or_nothing None None (Str "a@b.com") (Str "bad")
           (Rejected (rejection (Str "Invalid credentials")))
           (reached mounted_anonymous)).
  - reflexivity.
  - reflexivity.
Defined.

(** A page with a header and a stored key of its own, mounted over the
    stored token ["abc"], then signed out. *)
Lemma others_untouched_witness :
  let hdrs : gmap string string := {["Accept" := "application/json"]} in
  let store : gmap string string :=
    <["theme" := "dark"]> {["token" := "abc"]} in
  let m := mounted None None hdrs store in
  let r := run (invoke None None Logout) (reached m) in
  evolves None None (reached m) (pending m)
    (reached r) (pending m ++ pending r) /\
  (forall k, k <> "Authorization" -> headers (reached r) !! k = hdrs !! k) /\
  (forall k, k <> "token" -> localStorage (reached r) !! k = store !! k).
Proof.
  intros hdrs store m r. split.
  - eapply evolves_invoke; [apply evolves_refl | reflexivity].
  - apply (others_untouched None None hdrs store
             (reached r) (pending m ++ pending r)).
    eapply evolves_invoke; [apply evolves_refl | reflexivity].
Defined.

(** The calls in flight just after a mount over the stored token. *)
Lemma only_auth_requests_witness :
  reachable None None (reached mounted_restoring) (pending mounted_restoring) /\
  Forall (fun t : task => auth_request None None t.1)
    (pending mounted_restoring).
Proof.
  split; [by eapply reach_mount |].
  apply (only_auth_requests None None (reached mounted_restoring)
           (pending mounted_restoring)).
  by eapply reach_mount.
Defined.

(** Just after a mount over the stored token [loading] is true. *)
Lemma loading_means_restoring_witness :
  reachable None None (reached mounted_restoring) (pending mounted_restoring) /\
  loading (reached mounted_restoring) = true /\
  exists t, t ∈ pending mounted_restoring /\ t.1 = GET "/api/auth/me".
Proof.
  split; [by eapply reach_mount |]. split; [reflexivity |].
  apply (loading_means_restoring None None (reached mounted_restoring)
           (pending mounted_restoring)).
  - by eapply reach_mount.
  - reflexivity.
Defined.

(** A login called in the anonymous state, where [loading] is false. *)
Lemma loading_stays_false_witness :
  let s0 := reached mounted_anonymous in
  let r := run (invoke None None (Login (Str "a@b.com") (Str "pw"))) s0 in
  reachable None None s0 (pending mounted_anonymous) /\
  evolves None None s0 (pending mounted_anonymous)
    (reached r) (pending mounted_anonymous ++ pending r) /\
  loading s0 = false /\
  loading (reached r) = false.
Proof.
  intros s0 r.
  split; [by eapply reach_mount |].
  split; [eapply evolves_invoke; [apply evolves_refl | reflexivity] |].
  split; [reflexivity |].
  apply (loading_stays_false None None s0 (pending mounted_anonymous)
           (reached r) (pending mounted_anonymous ++ pending r)).
  - by eapply reach_mount.
  - eapply evolves_invoke; [apply evolves_refl | reflexivity].
  - reflexivity.
Defined.

(** The stored token ["abc"] rejected, a login answered with ["xyz"]
    before the revoke call settles. *)
Lemma late_revoke_signs_out_witness :
  let s := reached mounted_restoring in
  let r1 := exec [Rejected network_error] (checkAuth None None (Str "abc")) s in
  let r2 := exec [Resolved (login_response (Str "xyz"))]
              (login None None (Str "a@b.com") (Str "pw")) (reached r1) in
  kept (token s) s /\
  signed_in (Obj [("id", Num two)]) (Str "xyz") (reached r2) /\
  forall revoke o',
    revoke ∈ started r1 ->
    signed_out (reached (settle revoke o' (reached r2))).
Proof.
  assert (kept (token (reached mounted_restoring)) (reached mounted_restoring))
    as Hk by (intros _; split; reflexivity).
  split; [exact Hk |].
  apply (late_revoke_signs_out None None (Str "abc") (Rejected network_error)
           (Str "a@b.com") (Str "pw") (login_response (Str "xyz"))
           (Obj [("user", Obj [("id", Num two)]); ("token", Str "xyz")])
           (Obj [("id", Num two)]) (Str "xyz")
           (reached mounted_restoring)).
  - exact Hk.
  - reflexivity.
  - reflexivity.
  - reflexivity.
  - reflexivity.
  - reflexivity.
  - reflexivity.
Defined.

(** After a [logout] and an external login with the token ["abc"] in one
    commit: the header carries the token, the store holds nothing. *)
Lemma header_follows_commit_witness :
  reachable None None logout_then_oauth [] /\
  committed logout_then_oauth /\
  headers logout_then_oauth !! "Authorization" = Some "Bearer abc" /\
  (localStorage logout_then_oauth !! "token" = Some "abc" \/
   localStorage logout_then_oauth !! "token" = None).
Proof.
  assert (reachable None None logout_then_oauth []) as H.
  { pose proof logged_out_reachable as H1.
    apply (reach_call _ _ _ _
             (HandleOAuthSuccess (Str "abc") (Obj [("id", Num two)]))) in H1.
    apply reach_commit in H1. exact H1. }
  split; [exact H |]. split; [reflexivity |].
  apply (header_follows_commit None None logout_then_oauth [] H).
  reflexivity.
Defined.

(** Start-up over the stored token ["abc"], accepted for a user. *)
Lemma startup_restore_accepted_witness :
  match pending mounted_restoring with
  | [me] =>
      let r := settle me (Resolved me_response) (reached mounted_restoring) in
      signed_in (Obj [("id", Num one)]) (Str "abc") (reached r) /\
      loading (reached r) = false /\
      stands r = Done (Ok Undefined) /\ pending r = []
  | _ => False
  end.
Proof.
  change mounted_restoring with (mounted None None ∅ {["token" := "abc"]}).
  destruct (pending (mounted None None ∅ {["token" := "abc"]}))
    as [| me [| ? ?]] eqn:Hpending; try discriminate Hpending.
  apply (startup_restore_accepted None None ∅ {["token" := "abc"]} "abc" me
           me_response
           (Obj [("user", Obj [("id", Num one)])]) (Obj [("id", Num one)])).
  - reflexivity.
  - discriminate.
  - rewrite Hpending. apply list_elem_of_singleton. reflexivity.
  - reflexivity.
  - reflexivity.
Defined.
